(** * dtsearch: column selection, alignment, highlighting and table rendering

    A shallow embedding of [src/index.ts].  JavaScript strings are sequences of
    UTF-16 code units, JavaScript objects used as dictionaries are finite maps,
    [console.log] is a list of logged calls, and a thrown [Error] is the left
    injection of a sum.  The libraries the program imports (the LP solver,
    chalk, he, moment, the Algolia client and the part of the regular
    expression engine that interprets pattern syntax) are fields of an
    environment record.  A function that can throw comes as the value it
    computes and as the call that returns that value or throws; the numbers
    of the solver are doubles; and the [format] functions are embedded a
    second time on records that lack fields ([Untyped]). *)

From Stdlib Require Import ZArith Lia Ascii String Sorted PrimFloat.
From stdpp Require Import gmap strings list fin_maps pretty.

(** ** JavaScript strings *)

(** A string is the list of its UTF-16 code units; [length] is [.length]. *)
Abbreviation jsstring := (list N).

(** An ASCII literal as a JavaScript string. *)
Definition js (s : string) : jsstring :=
  N_of_ascii <$> list_ascii_of_string s.

Definition space : N := 32%N.
Definition LF : N := 10%N.
Definition CR : N := 13%N.

(** [v.slice(0, w)] for a length [w]. *)
Definition slice0 (w : nat) (v : jsstring) : jsstring := take w v.

(** [v.padStart(w)] and [v.padEnd(w)]: spaces up to length [w], nothing when
    [v] is already that long. *)
Definition padStart (w : nat) (v : jsstring) : jsstring :=
  replicate (w - length v) space ++ v.

Definition padEnd (w : nat) (v : jsstring) : jsstring :=
  v ++ replicate (w - length v) space.

(** Upper-casing of one code unit, on the ASCII letters.  The headers of the
    catalog are ASCII, and so is the case folding modelled for the [i] flag
    of a regular expression. *)
Definition upper_unit (c : N) : N :=
  if ((97 <=? c) && (c <=? 122))%N then (c - 32)%N else c.

Definition toUpperCase (s : jsstring) : jsstring := upper_unit <$> s.

(** [a.join(sep)] *)
Fixpoint join (sep : jsstring) (a : list jsstring) : jsstring :=
  match a with
  | [] => []
  | [x] => x
  | x :: a' => x ++ sep ++ join sep a'
  end.

(** The line feeds of a text. *)
Definition line_feeds (s : jsstring) : nat := length (filter (λ c, c = LF) s).

(** ['' + i] for an array index [i]. *)
Definition num_str (i : nat) : jsstring := js (pretty i).

(** [x || d] on a possibly absent string: the empty string is falsy too. *)
Definition str_or (x : option jsstring) (d : jsstring) : jsstring :=
  match x with
  | Some (c :: s) => c :: s
  | _ => d
  end.

(** ** The records of the search response *)

(** Modelled from the spec: the declarations of [Hit] and [Description]
    ([./response]) are not part of the sources at hand.  The fields are those
    [index.ts] reads.  [Hit] is the record as the program is typed against
    it: a field is optional exactly where [index.ts] guards its use
    ([h.description || ''], [h.homepage || ...], [h.repository ? ... ],
    [Description | null]), and [types] is the union discriminated by [ts]
    that the two [types] columns and [makeInstallCommand] branch on.  A
    record that lacks one of the other fields is an [Untyped.Hit], below. *)
Inductive MatchLevel := LevelNone | LevelPartial | LevelFull.

Record Description := {
  matchLevel : MatchLevel;
  fullyHighlighted : bool;
  matchedWords : list jsstring;
}.

Record HighlightResult := {
  hl_name : option Description;
  hl_description : option Description;
}.

Inductive Types :=
  | TsIncluded
  | TsDefinitelyTyped (definitelyTyped : jsstring)
  | TsNone.

Record Repository := { url : jsstring }.

Record Hit := {
  objectID : jsstring;
  humanDownloadsLast30Days : jsstring;
  popular : bool;
  types : Types;
  description : option jsstring;
  modified : Z;
  homepage : option jsstring;
  repository : option Repository;
  _highlightResult : HighlightResult;
}.

(** ** The model handed to the LP solver, and what the solver answers *)

Record Constraint := {
  cmax : Z;                       (* max *)
  cname : option jsstring;        (* name, "included here just for debugging" *)
}.

Inductive OpType := OpMax | OpMin.

Record Model := {
  opType : OpType;
  optimize : jsstring;
  constraints : gmap jsstring Constraint;
  variables : gmap jsstring (gmap jsstring Z);
  ints : list jsstring;
}.

(** The fields of the result that [pickColumns] reads: [result.feasible] and
    [result[i]], the number the solver gives the variable named [i].  A
    JavaScript number is a double; the property is absent for a variable the
    solver leaves out of its result. *)
Record SolveResult := {
  feasible : bool;
  values : gmap jsstring float;
}.

(** ** What [console.log] receives *)

Record SearchOptions := {
  analyticsTags : list jsstring;
  hitsPerPage : Z;
  filters : jsstring;
  attributesToRetrieve : list jsstring;
}.

Inductive arg :=
  | AStr (s : jsstring)
  | ANum (n : Z)
  | AModel (m : Model)
  | AResult (r : SolveResult)
  | AResponse (hits : list Hit).

(** One call of [console.log] with its arguments. *)
Abbreviation logged := (list arg).

(** The lines a call of [console.log] with one string prints: one, and one
    more for every line feed of the string.  (How many lines the dump of an
    object takes is node's business.) *)
Definition printed_lines (call : logged) : option nat :=
  match call with
  | [AStr s] => Some (S (line_feeds s))
  | _ => None
  end.

(** What a run leaves on the two streams. *)
Record Run := {
  stdout : list logged;
  stderr : list jsstring;
}.

(** ** The command line and the environment *)

(** The options [commander] parsed. *)
Record Program := {
  npm : bool;
  yarn : bool;
  num : Z;
  exact : bool;
  repo : bool;
  debug : bool;
  bundled : bool;
  dt : bool;
  untyped : bool;
  args : list jsstring;
}.

(** The imported libraries and the process state. *)
Record Env := {
  (* [solver.Solve] of javascript-lp-solver *)
  Solve : Model → SolveResult;
  (* [decode] of he *)
  decode : jsstring → jsstring;
  (* [moment(t).format('YYYY-MM-DD')] and [moment(t).fromNow()] *)
  moment_format : Z → jsstring;
  moment_fromNow : Z → jsstring;
  (* the time [moment(undefined)] stands for: [Date.now()] *)
  now : Z;
  (* the SyntaxError [new RegExp(word, 'ig')] throws when the word is no
     pattern, as [c++] or an open parenthesis: its message *)
  RegExp_error : jsstring → option jsstring;
  (* [val.replace(new RegExp(word, 'ig'), by)] for a [word] the constructor
     accepts and that is not plain ASCII text, or a [by] that contains [$];
     arguments: word, by, val *)
  replace_pattern : jsstring → jsstring → jsstring → jsstring;
  (* [index.search(query, options)]: the hits, or the rejection *)
  search : jsstring → SearchOptions → jsstring + list Hit;
  (* [Date.now() - startMs] *)
  elapsedMs : Z;
  (* [process.stdout.columns], undefined when stdout is no terminal *)
  stdout_columns : option nat;
  (* whether chalk emits styling codes (its level is above 0) *)
  chalk_level : bool;
}.

(** ** chalk *)

Definition ESC : N := 27%N.
Definition bold_open : jsstring := ESC :: js "[1m".
Definition bold_close : jsstring := ESC :: js "[22m".

(** A closing code the text has of its own would end the style early: chalk
    puts an opening code behind every one of them, from the left and without
    overlap.  [skip] counts the code units of the current code still to be
    dropped. *)
Fixpoint reopen_go (skip : nat) (s : jsstring) : jsstring :=
  match s with
  | [] => []
  | c :: s' =>
      match skip with
      | S k => reopen_go k s'
      | O =>
          if bool_decide (bold_close `prefix_of` s)
          then bold_close ++ bold_open ++ reopen_go (length bold_close - 1) s'
          else c :: reopen_go 0 s'
      end
  end.

(** chalk closes the style in front of every line break of the text, a line
    feed or a carriage return with its line feed, and opens it again behind
    it. *)
Fixpoint encase_lines (s : jsstring) : jsstring :=
  match s with
  | [] => []
  | c :: s' =>
      if bool_decide (c = LF)
      then bold_close ++ LF :: bold_open ++ encase_lines s'
      else
        match s' with
        | d :: s'' =>
            if bool_decide (c = CR ∧ d = LF)
            then bold_close ++ CR :: LF :: bold_open ++ encase_lines s''
            else c :: encase_lines s'
        | [] => [c]
        end
  end.

(** [chalk.bold(s)], as [applyStyle] of chalk 4 computes it: the text between
    the two codes, with its own closing codes reopened and its line breaks
    encased; the text itself when it is empty or styling is off. *)
Definition chalk_bold (level : bool) (s : jsstring) : jsstring :=
  match level, s with
  | true, _ :: _ => bold_open ++ encase_lines (reopen_go 0 s) ++ bold_close
  | _, _ => s
  end.

(** ** [String.prototype.replace] with [new RegExp(word, 'ig')] *)

(** The code units that are pattern syntax. *)
Definition pattern_syntax : jsstring := js "\^$.|?*+()[]{}".

(** A word of ASCII code units without pattern syntax is a pattern that
    matches itself, and under the [i] flag its letters in either case: the
    flag never lets an ASCII code unit match one outside ASCII.  Every other
    word is left to the engine, see [replace_pattern]. *)
Definition plain_word (w : jsstring) : bool :=
  forallb (λ c, (c <? 128)%N && bool_decide (c ∉ pattern_syntax)) w.

(** A replacement without [$] stands for itself. *)
Definition plain_replacement (r : jsstring) : bool :=
  forallb (λ c, bool_decide (c ≠ 36%N)) r.

(** Does the code unit [b] of the text match the ASCII code unit [a] of the
    word under the [i] flag?  Both are compared in upper case, and a code
    unit outside ASCII is its own upper case as far as an ASCII one is
    concerned. *)
Definition eq_ci (a b : N) : bool := bool_decide (upper_unit a = upper_unit b).

(** Does the word match at the head of [s]? *)
Fixpoint starts_with_ci (w s : jsstring) : bool :=
  match w, s with
  | [], _ => true
  | a :: w', b :: s' => eq_ci a b && starts_with_ci w' s'
  | _ :: _, [] => false
  end.

(** The [g] flag: scan from the left, replace every match and continue behind
    it; [skip] counts the code units of the current match still to be dropped.
    The empty word matches the empty string before every code unit and at the
    end. *)
Fixpoint replace_go (w r : jsstring) (skip : nat) (s : jsstring) : jsstring :=
  match s with
  | [] => match w with [] => r | _ :: _ => [] end
  | c :: s' =>
      match skip with
      | S k => replace_go w r k s'
      | O =>
          if starts_with_ci w s then
            match w with
            | [] => r ++ c :: replace_go w r 0 s'
            | _ :: w' => r ++ replace_go w r (length w') s'
            end
          else c :: replace_go w r 0 s'
      end
  end.

Definition replace_literal (w r s : jsstring) : jsstring := replace_go w r 0 s.

(** ** What the terminal shows *)

(** The code units that take up room on the terminal: the text without the
    two codes of [chalk.bold].  [skip] counts the code units of the current
    code still to be dropped. *)
Fixpoint visible_go (skip : nat) (s : jsstring) : jsstring :=
  match s with
  | [] => []
  | c :: s' =>
      match skip with
      | S k => visible_go k s'
      | O =>
          if bool_decide (bold_open `prefix_of` s)
          then visible_go (length bold_open - 1) s'
          else if bool_decide (bold_close `prefix_of` s)
          then visible_go (length bold_close - 1) s'
          else c :: visible_go 0 s'
      end
  end.

Definition visible (s : jsstring) : jsstring := visible_go 0 s.

(** A matched word as a search for words yields it: not empty, plain ASCII
    text without pattern syntax, without a space. *)
Definition spaceless_plain_word (w : jsstring) : Prop :=
  w ≠ [] ∧ plain_word w = true ∧ space ∉ w.

(** Two texts with the same code units up to the case of the ASCII letters. *)
Definition same_letters (a b : jsstring) : Prop :=
  upper_unit <$> a = upper_unit <$> b.

(** ** Where [highlightValue] returns *)

(** What [new RegExp(word, 'ig')] throws: nothing for plain text, otherwise
    what the engine says. *)
Definition pattern_error (env : Env) (word : jsstring) : option jsstring :=
  if plain_word word then None else RegExp_error env word.

Definition pattern_accepted (env : Env) (word : jsstring) : Prop :=
  pattern_error env word = None.

(** [highlightValue] returns on this annotation.  It constructs a pattern
    from every matched word, in a loop that a match which is not full
    reaches; the first word that is no pattern makes it throw. *)
Definition highlight_returns (env : Env) (a : option Description) : Prop :=
  match a with
  | None => True
  | Some d =>
      matchLevel d = LevelNone ∨ fullyHighlighted d = true
      ∨ Forall (pattern_accepted env) (matchedWords d)
  end.

(** Both highlighters of the catalog return on this hit. *)
Definition highlightable (env : Env) (hit : Hit) : Prop :=
  highlight_returns env (hl_name (_highlightResult hit)) ∧
  highlight_returns env (hl_description (_highlightResult hit)).

(** ** The solver's contract *)

(** The documented meaning of a model with [max] constraints and all variables
    integer: every variable is a non-negative integer, and for every named
    constraint the sum over the variables of their coefficient of that name
    times their value stays below the constraint's [max]. *)
Definition sumZ (l : list Z) : Z := foldr Z.add 0%Z l.

Definition coeff (attrs : gmap jsstring Z) (a : jsstring) : Z :=
  default 0%Z (attrs !! a).

Definition lhs (m : Model) (a : jsstring) (x : jsstring → Z) : Z :=
  sumZ ((λ va, coeff va.2 a * x va.1)%Z <$> map_to_list (variables m)).

Definition satisfies (m : Model) (x : jsstring → Z) : Prop :=
  (∀ v, is_Some (variables m !! v) → (0 ≤ x v)%Z) ∧
  (∀ c con, constraints m !! c = Some con → (lhs m c x ≤ cmax con)%Z).

Definition objective (m : Model) (x : jsstring → Z) : Z := lhs m (optimize m) x.

(** The double of an integer, exact below 2^53: among them the 0 and 1 of a
    selection. *)
Fixpoint number_of_pos (p : positive) : float :=
  match p with
  | xH => 1
  | xO p => 2 * number_of_pos p
  | xI p => 2 * number_of_pos p + 1
  end%float.

Definition number_of_Z (z : Z) : float :=
  match z with
  | Z0 => 0
  | Zpos p => number_of_pos p
  | Zneg p => - number_of_pos p
  end%float.

(** The result [r] spells out the integer assignment [x]: the number of
    every variable of the model is the integer [x] gives it, and a variable
    the result leaves out is 0 in [x]. *)
Definition reads (m : Model) (r : SolveResult) (x : jsstring → Z) : Prop :=
  ∀ v, is_Some (variables m !! v) →
    match values r !! v with
    | Some a => a = number_of_Z (x v)
    | None => x v = 0%Z
    end.

(** Every variable of the model is declared an integer. *)
Definition all_integer (m : Model) : Prop :=
  ∀ v, is_Some (variables m !! v) → v ∈ ints m.

(** [x] satisfies the constraints, and no assignment that satisfies them is
    better in the direction [opType] names. *)
Definition optimal (m : Model) (x : jsstring → Z) : Prop :=
  satisfies m x ∧
  ∀ y, satisfies m y →
    match opType m with
    | OpMax => (objective m y ≤ objective m x)%Z
    | OpMin => (objective m x ≤ objective m y)%Z
    end.

(** The solver is right about a model [m] in integers: a result it reports
    feasible spells out an optimal integer assignment.  Nothing in the
    program checks this: [pickColumns] takes the numbers as they come. *)
Definition solves (solve : Model → SolveResult) (m : Model) : Prop :=
  all_integer m →
  feasible (solve m) = true →
  ∃ x, reads m (solve m) x ∧ optimal m x.

(** ** The column catalog *)

Inductive Align := AlignLeft | AlignRight.

Record Column := {
  header : jsstring;
  align : option Align;
  maxWidth : option nat;
  format : Hit → jsstring;
  highlight : option (jsstring → Hit → jsstring + jsstring);
  importance : Z;
  mutexGroup : option jsstring;
}.

(** [col.importance = z] *)
Definition set_importance (z : Z) (c : Column) : Column :=
  {| header := header c; align := align c; maxWidth := maxWidth c;
     format := format c; highlight := highlight c;
     importance := z; mutexGroup := mutexGroup c |}.

(** The filters of the search. *)
Definition quote : N := 34%N.
Definition IS_DT : jsstring :=
  js "types.ts:" ++ quote :: js "definitely-typed" ++ [quote].
Definition IS_INCLUDED : jsstring :=
  js "types.ts:" ++ quote :: js "included" ++ [quote].
Definition NOT_TYPES : jsstring := js "NOT owner.name:DefinitelyTyped".
Definition FILTERS_default : jsstring :=
  js "(" ++ IS_DT ++ js " OR " ++ IS_INCLUDED ++ js ") AND " ++ NOT_TYPES.
Definition FILTERS_dt : jsstring := IS_DT.
Definition FILTERS_bundled : jsstring := IS_INCLUDED ++ js " AND " ++ NOT_TYPES.
Definition FILTERS_untyped : jsstring := NOT_TYPES.

Definition ATTRIBUTES : list jsstring :=
  [js "types"; js "downloadsLast30Days"; js "humanDownloadsLast30Days";
   js "popular"; js "keywords"; js "description"; js "modified";
   js "homepage"; js "repository"].

(** The fire emoji of the [pop] column, two code units. *)
Definition fire : jsstring := [55357%N; 56613%N].

(** The messages. *)
Definition flags : list jsstring := [js "untyped"; js "dt"; js "bundled"].

Definition conflict_message : jsstring :=
  js "May only specify one of " ++ join (js ",") flags.

Definition unknown_header_message (h : jsstring) : jsstring :=
  js "Unable to find column with header " ++ h.

Definition no_results_message : jsstring :=
  js "No results. Try dtsearch -u to include packages without types.".

Definition only_message (n : nat) : jsstring :=
  10%N :: js "Only " ++ num_str n ++ js " result"
  ++ (if decide (1 < n) then js "s" else []) ++ js ". "
  ++ js "Try dtsearch -u to include packages without types.".

Definition got_message (n : nat) : jsstring :=
  js "Got " ++ num_str n ++ js " results, pared down to " ++ num_str n.

(** Sequencing of steps that may throw. *)
Definition andThen {A B} (x : jsstring + A) (f : A → jsstring + B) : jsstring + B :=
  match x with
  | inl e => inl e
  | inr a => f a
  end.

(** The array of the results up to the first call that throws. *)
Fixpoint first_error {E A} (l : list (E + A)) : E + list A :=
  match l with
  | [] => inr []
  | inl e :: _ => inl e
  | inr a :: l' =>
      match first_error l' with
      | inl e => inl e
      | inr as_ => inr (a :: as_)
      end
  end.

Section Program.
Context (env : Env) (program : Program).

(** [highlightValue]: the loop over the matched words replaces in the value
    the previous words have already decorated.  [replace_word] and
    [highlightValue] are the values; [highlightValue_call] is the call, which
    throws where [new RegExp] does. *)
Definition replace_word (val word : jsstring) : jsstring :=
  let by_ := chalk_bold (chalk_level env) word in
  if plain_word word && plain_replacement by_
  then replace_literal word by_ val
  else replace_pattern env word by_ val.

Definition highlightValue (val : jsstring) (highlightResult : option Description)
  : jsstring :=
  match highlightResult with
  | None => val
  | Some d =>
      match matchLevel d with
      | LevelNone => val
      | _ =>
          if fullyHighlighted d then chalk_bold (chalk_level env) val
          else foldl replace_word val (matchedWords d)
      end
  end.

(** One turn of the loop: the pattern is constructed first. *)
Definition replace_call (val word : jsstring) : jsstring + jsstring :=
  match pattern_error env word with
  | Some e => inl e
  | None => inr (replace_word val word)
  end.

Definition highlightValue_call (val : jsstring)
    (highlightResult : option Description) : jsstring + jsstring :=
  match highlightResult with
  | None => inr val
  | Some d =>
      match matchLevel d with
      | LevelNone => inr val
      | _ =>
          if fullyHighlighted d then inr (chalk_bold (chalk_level env) val)
          else foldl (λ val word, andThen val (λ val, replace_call val word))
                     (inr val) (matchedWords d)
      end
  end.

Definition makeInstallCommand (cmd : jsstring) (h : Hit) : jsstring :=
  let install :=
    cmd ++ js " " ++ (if exact program then js "-E " else []) ++ objectID h in
  match types h with
  | TsIncluded => install
  | TsDefinitelyTyped definitelyTyped =>
      install ++ js " && " ++ cmd ++ js " -D"
      ++ (if exact program then js "E" else []) ++ js " " ++ definitelyTyped
  | TsNone => []
  end.

Definition repository_url (h : Hit) : jsstring :=
  match repository h with
  | Some r => url r
  | None => []
  end.

Definition columns : list Column := [
  {| header := js "DLs";
     format := λ h, humanDownloadsLast30Days h;
     importance := 3; align := Some AlignRight;
     maxWidth := None; highlight := None; mutexGroup := None |};
  {| header := js "pop";
     format := λ h, if popular h then fire else [];
     importance := 2;
     align := None; maxWidth := None; highlight := None; mutexGroup := None |};
  {| header := js "name";
     format := λ h, objectID h;
     highlight := Some (λ v h, highlightValue_call v (hl_name (_highlightResult h)));
     importance := 100;
     align := None; maxWidth := None; mutexGroup := None |};
  {| header := js "types";
     format := λ h, match types h with
                    | TsIncluded => js "<bundled>"
                    | TsDefinitelyTyped definitelyTyped => definitelyTyped
                    | TsNone => []
                    end;
     importance := 100; mutexGroup := Some (js "types");
     align := None; maxWidth := None; highlight := None |};
  {| header := js "types";
     format := λ h, match types h with
                    | TsIncluded => js "<inc>"
                    | TsDefinitelyTyped _ => js "dt"
                    | TsNone => []
                    end;
     importance := 80; mutexGroup := Some (js "types");
     align := None; maxWidth := None; highlight := None |};
  {| header := js "npm";
     format := λ h, makeInstallCommand (js "npm install") h;
     importance := -1;
     align := None; maxWidth := None; highlight := None; mutexGroup := None |};
  {| header := js "yarn";
     format := λ h, makeInstallCommand (js "yarn add") h;
     importance := -1;
     align := None; maxWidth := None; highlight := None; mutexGroup := None |};
  {| header := js "description";
     format := λ h, decode env (str_or (description h) []);
     highlight :=
       Some (λ v h, highlightValue_call v (hl_description (_highlightResult h)));
     maxWidth := Some 40; importance := 25; mutexGroup := Some (js "desc");
     align := None |};
  {| header := js "description";
     format := λ h, decode env (str_or (description h) []);
     highlight :=
       Some (λ v h, highlightValue_call v (hl_description (_highlightResult h)));
     maxWidth := Some 60; importance := 30; mutexGroup := Some (js "desc");
     align := None |};
  {| header := js "description";
     format := λ h, decode env (str_or (description h) []);
     highlight :=
       Some (λ v h, highlightValue_call v (hl_description (_highlightResult h)));
     importance := 35; mutexGroup := Some (js "desc");
     align := None; maxWidth := None |};
  {| header := js "date";
     format := λ h, moment_format env (modified h);
     importance := 1;
     align := None; maxWidth := None; highlight := None; mutexGroup := None |};
  {| header := js "updated";
     format := λ h, moment_fromNow env (modified h);
     importance := 5;
     align := None; maxWidth := None; highlight := None; mutexGroup := None |};
  {| header := js "homepage";
     format := λ h, str_or (homepage h) (repository_url h);
     importance := 10;
     align := None; maxWidth := None; highlight := None; mutexGroup := None |};
  {| header := js "repo";
     format := λ h, repository_url h;
     importance := -1;
     align := None; maxWidth := None; highlight := None; mutexGroup := None |}
].
End Program.

(** ** Column selection *)

(** [_.fromPairs]: a later pair overrides an earlier one with the same key. *)
Definition fromPairs {V} (pairs : list (jsstring * V)) : gmap jsstring V :=
  foldl (λ o kv, <[kv.1 := kv.2]> o) ∅ pairs.

(** The keys of [new Set(a)], in insertion order. *)
Fixpoint set_keys (seen a : list jsstring) : list jsstring :=
  match a with
  | [] => []
  | x :: a' =>
      if decide (x ∈ seen) then set_keys seen a'
      else x :: set_keys (x :: seen) a'
  end.

(** [a.filter(isNonNullish)] *)
Definition filter_nonNullish {A} (a : list (option A)) : list A := omap id a.

(** [process.stdout.columns || 80] *)
Definition terminal_width (env : Env) : nat :=
  match stdout_columns env with
  | Some (S n) => S n
  | _ => 80
  end.

(** [c.header + (c.maxWidth ? '/' + c.maxWidth : '')] *)
Definition constraint_name (c : Column) : jsstring :=
  header c ++ match maxWidth c with
              | Some (S n) => js "/" ++ num_str (S n)
              | _ => []
              end.

Definition mutexes_of (cols : list Column) : list jsstring :=
  set_keys [] (filter_nonNullish (mutexGroup <$> cols)).

Definition lp_constraints (env : Env) (cols : list Column)
  : gmap jsstring Constraint :=
  let c0 : gmap jsstring Constraint :=
    {[ js "width" := {| cmax := 1 + Z.of_nat (terminal_width env);
                        cname := None |} ]} in
  let c1 :=
    foldl (λ cs mutex, <[mutex := {| cmax := 1; cname := None |}]> cs)
          c0 (mutexes_of cols) in
  foldl (λ cs ic, <[num_str ic.1 := {| cmax := 1;
                                       cname := Some (constraint_name ic.2) |}]> cs)
        c1 (imap pair cols).

(** The object literal of one variable: the spread of the mutex pairs comes
    last and overrides. [widths[i]] is read as 0 where the array has no entry;
    [printTable] passes one width per column. *)
Definition lp_variable (cols : list Column) (widths : list Z) (i : nat) (c : Column)
  : gmap jsstring Z :=
  fromPairs ((λ m, (m, if decide (mutexGroup c = Some m) then 1 else 0)%Z)
             <$> mutexes_of cols)
  ∪ <[num_str i := 1%Z]>
      (<[js "width" := (1 + default 0 (widths !! i))%Z]>
         {[ js "importance" := importance c ]}).

Definition lp_model (env : Env) (cols : list Column) (widths : list Z) : Model :=
  {| opType := OpMax;
     optimize := js "importance";
     constraints := lp_constraints env cols;
     variables := fromPairs (imap (λ i c, (num_str i, lp_variable cols widths i c)) cols);
     ints := imap (λ i _, num_str i) cols |}.

(** [result[i] ? i : null]: a number is falsy when it is 0, -0 or NaN, and so
    is a property that is absent; every other number, however small, is
    truthy. *)
Definition truthy (v : option float) : bool :=
  match v with
  | Some a => negb (is_zero a || is_nan a)
  | None => false
  end.

Section Render.
Context (env : Env) (program : Program).

(** [pickColumns], on the catalog as it stands when it is called; what it
    logs comes first. *)
Definition pickColumns (cols : list Column) (widths : list Z)
  : list logged * list nat :=
  let model := lp_model env cols widths in
  let log1 :=
    if debug program then [[AStr (js "Column LP model:"); AModel model]] else [] in
  let result := Solve env model in
  let log2 :=
    if debug program then [[AStr (js "LP result:"); AResult result]] else [] in
  (log1 ++ log2,
   if feasible result then
     filter_nonNullish
       (imap (λ i _, if truthy (values result !! num_str i) then Some i else None) cols)
   else
     filter_nonNullish
       (imap (λ i c, if (25 <=? importance c)%Z then Some i else None) cols)).

Definition formatResult (cols : list Column) (result : Hit) : list jsstring :=
  (λ col, format col result) <$> cols.

(** The function [formatColumn] maps over the values. *)
Definition formatCell (width : nat) (align : option Align) (v : jsstring)
  : jsstring :=
  let v := slice0 width v in
  match align with
  | Some AlignRight => padStart width v
  | _ => padEnd width v
  end.

(** [Math.min(maxLen, maxWidth || maxLen)] *)
Definition column_width (vals : list jsstring) (spec : Column) : nat :=
  let maxLen := max_list (length <$> vals) in
  maxLen `min` match maxWidth spec with
               | Some (S n) => S n
               | _ => maxLen
               end.

Definition formatColumn (vals : list jsstring) (spec : Column) : list jsstring :=
  formatCell (column_width vals spec) (align spec) <$> vals.

(** [printTable].  [main] passes one row per hit and one cell per column,
    and so does every statement below; on a table with a short row or a row
    without hit the code throws a TypeError, which the embedding leaves out:
    a read outside an array is the empty string here. *)
Definition table_columns (cols : list Column) (rows : list (list jsstring))
  : list (list jsstring) :=
  imap (λ j c, toUpperCase (header c) :: ((λ r, default [] (r !! j)) <$> rows)) cols.

Definition formatted_columns (cols : list Column) (rows : list (list jsstring))
  : list (list jsstring) :=
  zip_with formatColumn (table_columns cols rows) cols.

(** [formattedCols.map(c => c[0].length)] *)
Definition table_widths (formattedCols : list (list jsstring)) : list Z :=
  (λ c, Z.of_nat (length (default [] (c !! 0)))) <$> formattedCols.

(** The value of a call that returns, and [d] for one that throws. *)
Definition value_or (d : jsstring) (x : jsstring + jsstring) : jsstring :=
  match x with
  | inr v => v
  | inl _ => d
  end.

(** The callback of [colIndices.map]: the column with its highlighter
    applied to the cells below the header, in their order, or what the first
    call that throws has thrown.  (Every row has its hit, see above.) *)
Definition pickedCol (cols : list Column) (formattedCols : list (list jsstring))
    (hits : list Hit) (i : nat) : jsstring + list jsstring :=
  match cols !! i with
  | Some spec =>
      match highlight spec with
      | None => inr (default [] (formattedCols !! i))
      | Some highlight =>
          first_error
            (imap (λ j v, match j with
                          | S j' => match hits !! j' with
                                    | Some hit => highlight v hit
                                    | None => inr v
                                    end
                          | O => inr v
                          end)
                  (default [] (formattedCols !! i)))
      end
  | None => inr []
  end.

(** The cells of the picked column where its highlighter returns; a cell on
    which it throws, and with which there is no table, is left as it was
    aligned. *)
Definition picked_column (cols : list Column) (formattedCols : list (list jsstring))
    (hits : list Hit) (i : nat) : list jsstring :=
  match cols !! i with
  | Some spec =>
      match highlight spec with
      | None => default [] (formattedCols !! i)
      | Some highlight =>
          imap (λ j v, match j with
                       | S j' => match hits !! j' with
                                 | Some hit => value_or v (highlight v hit)
                                 | None => v
                                 end
                       | O => v
                       end)
               (default [] (formattedCols !! i))
      end
  | None => []
  end.

Definition table_line (pickedCols : list (list jsstring)) (i : nat) : logged :=
  [AStr (join (js " ") ((λ c, default [] (c !! i)) <$> pickedCols))].

(** [printTable]: what it logs, and what it throws if it throws.  The picked
    columns are complete before the first line is logged. *)
Definition printTable (cols : list Column) (rows : list (list jsstring))
    (hits : list Hit) : list logged * option jsstring :=
  let formattedCols := formatted_columns cols rows in
  let widths := table_widths formattedCols in
  let '(logs, colIndices) := pickColumns cols widths in
  match first_error (pickedCol cols formattedCols hits <$> colIndices) with
  | inl e => (logs, Some e)
  | inr pickedCols =>
      (logs ++ (table_line pickedCols <$> seq 0 (S (length rows))), None)
  end.

(** [adjustImportance]: the catalog after the loop, or the error thrown. *)
Definition adjustImportance (h : jsstring) (newImportance : Z) (cols : list Column)
  : jsstring + list Column :=
  if existsb (λ col, bool_decide (header col = h)) cols then
    inr ((λ col, if decide (header col = h) then set_importance newImportance col
                 else col) <$> cols)
  else inl (unknown_header_message h).

Definition when (b : bool) (f : list Column → jsstring + list Column)
    (cols : list Column) : jsstring + list Column :=
  if b then f cols else inr cols.

(** [applyFlags]: the adjusted catalog and the filters, or the error. *)
Definition applyFlags (cols : list Column) : jsstring + (list Column * jsstring) :=
  andThen (when (yarn program) (adjustImportance (js "yarn") 1000) cols) (λ cols,
  andThen (when (npm program) (adjustImportance (js "npm") 1000) cols) (λ cols,
  andThen (when (yarn program || npm program)
                (adjustImportance (js "types") 25) cols) (λ cols,
  andThen (when (repo program) (adjustImportance (js "repo") 1000) cols) (λ cols,
  andThen (when (repo program) (adjustImportance (js "homepage") (-1)) cols) (λ cols,
  if decide (1 < sum_list ((λ f : bool, if f then 1 else 0)
                           <$> [untyped program; dt program; bundled program]))
  then inl conflict_message
  else
    inr (cols,
         if untyped program then FILTERS_untyped
         else if dt program then FILTERS_dt
         else if bundled program then FILTERS_bundled
         else FILTERS_default)))))).

(** The options of [index.search]. *)
Definition search_options (filters : jsstring) : SearchOptions :=
  {| analyticsTags := [js "dtsearch"]; hitsPerPage := num program;
     filters := filters; attributesToRetrieve := ATTRIBUTES |}.

(** The body of the asynchronous function and its [catch]. *)
Definition main : Run :=
  let query := join (js " ") (args program) in
  match applyFlags (columns env program) with
  | inl e => {| stdout := []; stderr := [e] |}
  | inr (cols, filters) =>
      match search env query (search_options filters) with
      | inl e => {| stdout := []; stderr := [e] |}
      | inr hits =>
          let log1 :=
            if debug program
            then [[AStr (js "Algolia responded in"); ANum (elapsedMs env);
                   AStr (js "ms")]]
            else [] in
          match hits with
          | [] => {| stdout := log1 ++ [[AStr no_results_message]]; stderr := [] |}
          | _ :: _ =>
              let log2 :=
                if debug program
                then [[AStr (got_message (length hits))]; [AResponse hits]]
                else [] in
              let table := formatResult cols <$> hits in
              let log3 :=
                if decide (Z.of_nat (length hits) < num program)%Z
                then [[AStr (only_message (length hits))]]
                else [] in
              match printTable cols table hits with
              | (logs, Some e) =>
                  {| stdout := log1 ++ log2 ++ logs; stderr := [e] |}
              | (logs, None) =>
                  {| stdout := log1 ++ log2 ++ logs ++ log3; stderr := [] |}
              end
          end
      end
  end.
End Render.

(** ** Records that lack fields *)

(** [index.ts] is written against the type [Hit]; what [formatResult] meets
    at run time is a record of the response, and JavaScript reads a field
    the record lacks as [undefined].  The [format] functions of the catalog
    and [makeInstallCommand] are embedded here a second time, as they run on
    such a record: a cell may be [undefined], and reading a property of
    [undefined] throws a TypeError. *)
Inductive TypeError := CannotRead (property : jsstring).

(** A cell: a string, or [undefined]. *)
Abbreviation cell := (option jsstring).

(** [`${x}`] *)
Definition template (x : option jsstring) : jsstring :=
  default (js "undefined") x.

Module Untyped.

(** Modelled from the spec: a record in which any field of [Hit], of its
    [types] and of its [repository] may be missing.  [ts] is compared with
    two strings; any other value of it counts as missing. *)
Record Types := {
  ts : option jsstring;
  definitelyTyped : option jsstring;
}.

(** Modelled from the spec: a repository, with or without its URL. *)
Record Repository := { url : option jsstring }.

(** Modelled from the spec: a record of the response.  The annotations are
    not read by the [format] functions. *)
Record Hit := {
  objectID : option jsstring;
  humanDownloadsLast30Days : option jsstring;
  popular : option bool;
  types : option Types;
  description : option jsstring;
  modified : option Z;
  homepage : option jsstring;
  repository : option Repository;
  _highlightResult : option HighlightResult;
}.

Section Program.
Context (env : Env) (program : Program).

(** The destructuring [{types, objectID}] reads no property of a property;
    [types.ts] does. *)
Definition makeInstallCommand (cmd : jsstring) (h : Hit) : TypeError + jsstring :=
  let install :=
    cmd ++ js " " ++ (if exact program then js "-E " else [])
    ++ template (objectID h) in
  match types h with
  | None => inl (CannotRead (js "ts"))
  | Some types =>
      if bool_decide (ts types = Some (js "included")) then inr install
      else if bool_decide (ts types = Some (js "definitely-typed")) then
        inr (install ++ js " && " ++ cmd ++ js " -D"
             ++ (if exact program then js "E" else []) ++ js " "
             ++ template (definitelyTyped types))
      else inr []
  end.

(** [h.repository ? h.repository.url : ''] *)
Definition repository_url (h : Hit) : cell :=
  match repository h with
  | Some r => url r
  | None => Some []
  end.

(** [moment(h.modified)]: the current time when the field is missing. *)
Definition moment (h : Hit) : Z := default (now env) (modified h).

(** The [format] functions of [columns], in the order of the catalog. *)
Definition formats : list (Hit → TypeError + cell) := [
  (* DLs *)
  λ h, inr (humanDownloadsLast30Days h);
  (* pop *)
  λ h, inr (Some (if default false (popular h) then fire else []));
  (* name *)
  λ h, inr (objectID h);
  (* types *)
  λ h, match types h with
       | None => inl (CannotRead (js "ts"))
       | Some types =>
           if bool_decide (ts types = Some (js "included"))
           then inr (Some (js "<bundled>"))
           else if bool_decide (ts types = Some (js "definitely-typed"))
                then inr (definitelyTyped types)
                else inr (Some [])
       end;
  (* types *)
  λ h, match types h with
       | None => inl (CannotRead (js "ts"))
       | Some types =>
           if bool_decide (ts types = Some (js "included"))
           then inr (Some (js "<inc>"))
           else if bool_decide (ts types = Some (js "definitely-typed"))
                then inr (Some (js "dt"))
                else inr (Some [])
       end;
  (* npm *)
  λ h, match makeInstallCommand (js "npm install") h with
       | inl e => inl e
       | inr command => inr (Some command)
       end;
  (* yarn *)
  λ h, match makeInstallCommand (js "yarn add") h with
       | inl e => inl e
       | inr command => inr (Some command)
       end;
  (* description, three times *)
  λ h, inr (Some (decode env (str_or (description h) [])));
  λ h, inr (Some (decode env (str_or (description h) [])));
  λ h, inr (Some (decode env (str_or (description h) [])));
  (* date *)
  λ h, inr (Some (moment_format env (moment h)));
  (* updated *)
  λ h, inr (Some (moment_fromNow env (moment h)));
  (* homepage *)
  λ h, inr (match homepage h with
            | Some (c :: s) => Some (c :: s)
            | _ => repository_url h
            end);
  (* repo *)
  λ h, inr (repository_url h)
].

(** [columns.map(col => col.format(result))] *)
Definition formatResult (result : Hit) : TypeError + list cell :=
  first_error ((λ format, format result) <$> formats).

End Program.

End Untyped.


(** ** The 0/1 program of the selection *)

(** A set of columns: indices of the catalog, each at most once. *)
Definition selection (cols : list Column) (sel : list nat) : Prop :=
  NoDup sel ∧ ∀ i, i ∈ sel → i < length cols.

Definition importance_at (cols : list Column) (i : nat) : Z :=
  from_option importance 0%Z (cols !! i).

Definition width_at (widths : list Z) (i : nat) : Z := default 0%Z (widths !! i).

(** The sum of [f] over the selected columns. *)
Definition total (f : nat → Z) (sel : list nat) : Z := sumZ (f <$> sel).

(** Every selected column takes its width and one separator; the terminal
    has room for its width and one more. *)
Definition fits (env : Env) (widths : list Z) (sel : list nat) : Prop :=
  (total (λ i, 1 + width_at widths i) sel ≤ Z.of_nat (terminal_width env) + 1)%Z.

(** At most one selected column in every mutex group. *)
Definition one_per_group (cols : list Column) (sel : list nat) : Prop :=
  ∀ g, length (filter (λ i, cols !! i ≫= mutexGroup = Some g) sel) ≤ 1.

Definition admissible (env : Env) (cols : list Column) (widths : list Z)
    (sel : list nat) : Prop :=
  selection cols sel ∧ fits env widths sel ∧ one_per_group cols sel.

(** The names of the model do not clash: no mutex group is called [width],
    [importance] or like the index of a column, and no index reads [width]
    or [importance]. *)
Definition names_apart (cols : list Column) : Prop :=
  (js "width" ∉ mutexes_of cols) ∧
  (js "importance" ∉ mutexes_of cols) ∧
  ∀ i, i < length cols →
    num_str i ≠ js "width" ∧ num_str i ≠ js "importance" ∧
    (num_str i ∉ mutexes_of cols).

(** The coefficient of the variable of column [i] in the row named [a]. *)
Definition coefficient (cols : list Column) (widths : list Z) (a : jsstring)
    (i : nat) : Z :=
  from_option (λ c, coeff (lp_variable cols widths i c) a) 0%Z (cols !! i).

(** ** A reference solver: exhaustive search over the 0/1 assignments *)

Fixpoint sublists {A} (l : list A) : list (list A) :=
  match l with
  | [] => [[]]
  | x :: l' => ((x ::.) <$> sublists l') ++ sublists l'
  end.

(** The assignment that is 1 on the variables in [s] and 0 elsewhere. *)
Definition indicator (s : list jsstring) (v : jsstring) : Z :=
  if bool_decide (v ∈ s) then 1%Z else 0%Z.

Definition satisfiesb (m : Model) (s : list jsstring) : bool :=
  forallb (λ cc, (lhs m cc.1 (indicator s) <=? cmax cc.2)%Z)
          (map_to_list (constraints m)).

Definition better (m : Model) (s b : list jsstring) : list jsstring :=
  if (objective m (indicator b) <? objective m (indicator s))%Z then s else b.

Definition exhaustive_Solve (m : Model) : SolveResult :=
  match List.filter (satisfiesb m) (sublists (ints m)) with
  | [] => {| feasible := false; values := ∅ |}
  | s :: ss =>
      {| feasible := true;
         values := fromPairs ((λ v, (v, 1%float)) <$> foldr (better m) s ss) |}
  end.

(** ** The catalog after [applyFlags] *)

(** [c] is [c0] with some importance: all [adjustImportance] changes. *)
Definition up_to_importance (c0 c : Column) : Prop :=
  c = set_importance (importance c) c0.

(** The catalogs [pickColumns], [formatResult] and [printTable] can meet. *)
Definition catalog (env : Env) (program : Program) (cols : list Column) : Prop :=
  Forall2 up_to_importance (columns env program) cols.

(** The highlighters of the catalog: [highlightValue] on an annotation of the
    hit, in columns that are left-aligned. *)
Definition highlights_with (env : Env) (c : Column) : Prop :=
  match highlight c with
  | None => True
  | Some hl =>
      align c = None ∧
      ∃ ann : Hit → option Description,
        hl = λ v h, highlightValue_call env v (ann h)
  end.

(** ** A sample run *)

Definition hit_react : Hit :=
  {| objectID := js "react";
     humanDownloadsLast30Days := js "49.3m";
     popular := true;
     types := TsDefinitelyTyped (js "@types/react");
     description :=
       Some (js "React is a JavaScript library for building user interfaces.");
     modified := 1596240000000;
     homepage := None;
     repository := Some {| url := js "https://github.com/facebook/react" |};
     _highlightResult :=
       {| hl_name := Some {| matchLevel := LevelFull; fullyHighlighted := true;
                             matchedWords := [js "react"] |};
          hl_description := Some {| matchLevel := LevelFull; fullyHighlighted := false;
                                    matchedWords := [js "react"] |} |} |}.

Definition hit_react_dom : Hit :=
  {| objectID := js "react-dom";
     humanDownloadsLast30Days := js "45.1m";
     popular := true;
     types := TsDefinitelyTyped (js "@types/react-dom");
     description := None;
     modified := 1596240000000;
     homepage := Some (js "https://reactjs.org/");
     repository := None;
     _highlightResult :=
       {| hl_name := Some {| matchLevel := LevelFull; fullyHighlighted := false;
                             matchedWords := [js "react"] |};
          hl_description := None |} |}.

(** A partial match of two words, the second of which occurs in the codes
    of [chalk.bold]. *)
Definition partial_a_m : Description :=
  {| matchLevel := LevelPartial; fullyHighlighted := false;
     matchedWords := [js "a"; js "m"] |}.

(** A partial match of one word, in lower case. *)
Definition partial_react : Description :=
  {| matchLevel := LevelPartial; fullyHighlighted := false;
     matchedWords := [js "react"] |}.

(** An environment whose solver reports every model infeasible. *)
Definition env_fallback : Env :=
  {| Solve := λ _, {| feasible := false; values := ∅ |};
     decode := λ s, s;
     moment_format := λ _, js "2020-08-01";
     moment_fromNow := λ _, js "a month ago";
     now := 1598918400000;
     RegExp_error := λ w, if bool_decide (w = js "c++")
                          then Some (js "Invalid regular expression: /c++/: Nothing to repeat")
                          else None;
     replace_pattern := λ _ _ val, val;
     search := λ _ _, inr [hit_react; hit_react_dom];
     elapsedMs := 120;
     stdout_columns := Some 80;
     chalk_level := true |}.

(** The same environment with the reference solver. *)
Definition env_exhaustive : Env :=
  {| Solve := exhaustive_Solve;
     decode := decode env_fallback;
     moment_format := moment_format env_fallback;
     moment_fromNow := moment_fromNow env_fallback;
     now := now env_fallback;
     RegExp_error := RegExp_error env_fallback;
     replace_pattern := replace_pattern env_fallback;
     search := search env_fallback;
     elapsedMs := elapsedMs env_fallback;
     stdout_columns := stdout_columns env_fallback;
     chalk_level := chalk_level env_fallback |}.

Definition program_react : Program :=
  {| npm := false; yarn := false; num := 10; exact := false; repo := false;
     debug := false; bundled := false; dt := false; untyped := false;
     args := [js "react"] |}.

Definition program_debug : Program :=
  {| npm := false; yarn := false; num := 10; exact := false; repo := false;
     debug := true; bundled := false; dt := false; untyped := false;
     args := [js "react"] |}.

Definition program_conflict : Program :=
  {| npm := false; yarn := true; num := 10; exact := false; repo := false;
     debug := false; bundled := true; dt := true; untyped := false;
     args := [js "react"] |}.

(** A run that asks for the yarn commands and the repository. *)
Definition program_yarn_repo : Program :=
  {| npm := false; yarn := true; num := 10; exact := true; repo := true;
     debug := false; bundled := false; dt := true; untyped := false;
     args := [js "react"] |}.

(** An environment whose search is rejected. *)
Definition env_offline : Env :=
  {| Solve := Solve env_fallback;
     decode := decode env_fallback;
     moment_format := moment_format env_fallback;
     moment_fromNow := moment_fromNow env_fallback;
     now := now env_fallback;
     RegExp_error := RegExp_error env_fallback;
     replace_pattern := replace_pattern env_fallback;
     search := λ _ _, inl (js "getaddrinfo ENOTFOUND");
     elapsedMs := elapsedMs env_fallback;
     stdout_columns := None;
     chalk_level := false |}.

(** A hit without annotations. *)
Definition hit_plain : Hit :=
  {| objectID := js "left-pad";
     humanDownloadsLast30Days := js "9.1m";
     popular := false;
     types := TsIncluded;
     description := Some (js "String left pad");
     modified := 1596240000000;
     homepage := None;
     repository := None;
     _highlightResult := {| hl_name := None; hl_description := None |} |}.



(** A hit whose description has two lines. *)
Definition hit_two_lines : Hit :=
  {| objectID := js "left-pad";
     humanDownloadsLast30Days := js "9.1m";
     popular := false;
     types := TsIncluded;
     description := Some (js "String left pad" ++ LF :: js "for Node");
     modified := 1596240000000;
     homepage := None;
     repository := None;
     _highlightResult := {| hl_name := None; hl_description := None |} |}.

(** A hit whose description matches a word that is no pattern. *)
Definition hit_cpp : Hit :=
  {| objectID := js "node-addon-api";
     humanDownloadsLast30Days := js "38m";
     popular := true;
     types := TsIncluded;
     description := Some (js "Node.js API (N-API) for c++");
     modified := 1596240000000;
     homepage := None;
     repository := None;
     _highlightResult :=
       {| hl_name := None;
          hl_description := Some {| matchLevel := LevelPartial;
                                    fullyHighlighted := false;
                                    matchedWords := [js "c++"] |} |} |}.



(** An annotation that highlights nothing: absent, or no match. *)
Definition no_match (a : option Description) : Prop :=
  match a with
  | None => True
  | Some d => matchLevel d = LevelNone
  end.

(** * Properties *)

(** ** Strings *)

Lemma length_toUpperCase (s : jsstring) : length (toUpperCase s) = length s.
Proof. apply length_fmap. Qed.

Lemma length_slice0 (w : nat) (v : jsstring) :
  length (slice0 w v) = w `min` length v.
Proof. unfold slice0. rewrite length_take. lia. Qed.

Lemma length_padEnd (w : nat) (v : jsstring) :
  length (padEnd w v) = w `max` length v.
Proof. unfold padEnd. rewrite length_app, length_replicate. lia. Qed.

Lemma length_padStart (w : nat) (v : jsstring) :
  length (padStart w v) = w `max` length v.
Proof. unfold padStart. rewrite length_app, length_replicate. lia. Qed.

(** ** Alignment *)

Lemma length_formatCell (width : nat) (a : option Align) (v : jsstring) :
  length (formatCell width a v) = width.
Proof.
  unfold formatCell.
  destruct a as [[]|]; rewrite ?length_padEnd, ?length_padStart, length_slice0; lia.
Qed.

(** C3. The cell of [formatColumn] first cuts the value down to at most
    [width] code units, then pads the cut value with spaces to exactly
    [width]: in front when the column is right-aligned, behind otherwise (no
    alignment given counts as left).  A value of at most [width] code units
    keeps its content and only gains padding. *)
Theorem formatCell_truncates_then_pads (v : jsstring) (width : nat) (a : option Align) :
  slice0 width v `prefix_of` v ∧
  length (slice0 width v) = width `min` length v ∧
  formatCell width a v =
    match a with
    | Some AlignRight =>
        replicate (width - length (slice0 width v)) space ++ slice0 width v
    | Some AlignLeft | None =>
        slice0 width v ++ replicate (width - length (slice0 width v)) space
    end ∧
  length (formatCell width a v) = width ∧
  ∀ k, formatCell (length v + k) a v =
         match a with
         | Some AlignRight => replicate k space ++ v
         | Some AlignLeft | None => v ++ replicate k space
         end.
Proof.
  split_and!.
  - apply prefix_take.
  - apply length_slice0.
  - by destruct a as [[]|].
  - apply length_formatCell.
  - intros k. unfold formatCell, padStart, padEnd, slice0.
    rewrite take_ge by lia.
    replace (length v + k - length v) with k by lia.
    by destruct a as [[]|].
Qed.

(** ** The catalog and its adjustments *)

(** Membership in a list that is written out. *)
Ltac in_list :=
  repeat first [apply list_elem_of_here | apply list_elem_of_further].

Lemma catalog_initial (env : Env) (program : Program) :
  catalog env program (columns env program).
Proof. unfold catalog. repeat constructor. Qed.

Lemma catalog_length (env : Env) (program : Program) (cols : list Column) :
  catalog env program cols → length cols = 14.
Proof. intros H. by rewrite <- (Forall2_length _ _ _ H). Qed.

Lemma up_to_importance_field {B} (f : Column → B) (c0 c : Column) :
  (∀ z c', f (set_importance z c') = f c') →
  up_to_importance c0 c → f c = f c0.
Proof. intros Hf ->. apply Hf. Qed.

Lemma catalog_fields {B} (f : Column → B) (env : Env) (program : Program)
    (cols : list Column) :
  (∀ z c', f (set_importance z c') = f c') →
  catalog env program cols → f <$> cols = f <$> columns env program.
Proof.
  intros Hf H. unfold catalog in H.
  induction H as [|c0 c l0 l Hc _ IH]; [done|].
  rewrite !fmap_cons, IH. f_equal. by apply up_to_importance_field.
Qed.

Lemma catalog_Forall (P : Column → Prop) (env : Env) (program : Program)
    (cols : list Column) :
  (∀ z c, P c → P (set_importance z c)) →
  Forall P (columns env program) →
  catalog env program cols → Forall P cols.
Proof.
  intros HP H0 Hc. unfold catalog in Hc.
  induction Hc as [|c0 c l0 l Hcc _ IH]; [done|].
  apply Forall_cons in H0 as [Hc0 H0].
  constructor; [|by apply IH]. rewrite Hcc. by apply HP.
Qed.

Lemma catalog_maxWidth (env : Env) (program : Program) (cols : list Column)
    (j : nat) (spec : Column) :
  catalog env program cols → cols !! j = Some spec → maxWidth spec ≠ Some 0.
Proof.
  intros Hc Hj.
  assert (Forall (λ c, maxWidth c ≠ Some 0) cols) as H
    by (apply (catalog_Forall _ env program); [done|by repeat constructor|done]).
  rewrite Forall_lookup in H. by apply (H j).
Qed.

Lemma catalog_headers (env : Env) (program : Program) (cols : list Column) :
  catalog env program cols →
  header <$> cols
  = [js "DLs"; js "pop"; js "name"; js "types"; js "types"; js "npm"; js "yarn";
     js "description"; js "description"; js "description"; js "date";
     js "updated"; js "homepage"; js "repo"].
Proof. intros H. by rewrite (catalog_fields header _ _ _ (λ _ _, eq_refl) H). Qed.

Lemma catalog_mutexGroups (env : Env) (program : Program) (cols : list Column) :
  catalog env program cols →
  mutexGroup <$> cols
  = [None; None; None; Some (js "types"); Some (js "types"); None; None;
     Some (js "desc"); Some (js "desc"); Some (js "desc"); None; None; None; None].
Proof. intros H. by rewrite (catalog_fields mutexGroup _ _ _ (λ _ _, eq_refl) H). Qed.


Lemma adjustImportance_catalog (env : Env) (program : Program)
    (cols : list Column) (h : jsstring) (z : Z) :
  catalog env program cols →
  h ∈ header <$> cols →
  ∃ cols', adjustImportance h z cols = inr cols' ∧ catalog env program cols'.
Proof.
  intros Hc Hh. unfold adjustImportance.
  assert (existsb (λ col, bool_decide (header col = h)) cols = true) as ->.
  { apply existsb_exists. apply list_elem_of_fmap in Hh as (c & -> & Hin).
    exists c. split; [by apply list_elem_of_In|]. by apply bool_decide_eq_true. }
  eexists. split; [done|]. unfold catalog in *.
  apply Forall2_fmap_r. eapply Forall2_impl; [exact Hc|].
  intros c0 c Hcc. simpl. case_decide; [|done].
  unfold up_to_importance in *. by rewrite Hcc.
Qed.

(** Every header [applyFlags] adjusts is in the catalog, so none of its
    adjustments throws. *)
Lemma applyFlags_catalog (env : Env) (program : Program) :
  ∃ cols, catalog env program cols ∧
    applyFlags program (columns env program)
    = if decide (1 < sum_list ((λ f : bool, if f then 1 else 0)
                               <$> [untyped program; dt program; bundled program]))
      then inl conflict_message
      else inr (cols,
                if untyped program then FILTERS_untyped
                else if dt program then FILTERS_dt
                else if bundled program then FILTERS_bundled
                else FILTERS_default).
Proof.
  unfold applyFlags.
  pose proof (catalog_initial env program) as H0.
  assert (∀ cols (b : bool) h z, catalog env program cols →
            h ∈ [js "yarn"; js "npm"; js "types"; js "repo"; js "homepage"] →
            ∃ cols', when b (adjustImportance h z) cols = inr cols'
                     ∧ catalog env program cols') as step.
  { intros cols b h z Hc Hh. destruct b; simpl; [|by eauto].
    apply (adjustImportance_catalog env program); [done|].
    rewrite (catalog_headers _ _ _ Hc).
    repeat (apply elem_of_cons in Hh as [->|Hh]; [in_list|]).
    by apply elem_of_nil in Hh. }
  destruct (step _ (yarn program) (js "yarn") 1000%Z H0) as (c1 & -> & H1);
    [in_list|]; simpl.
  destruct (step _ (npm program) (js "npm") 1000%Z H1) as (c2 & -> & H2);
    [in_list|]; simpl.
  destruct (step _ (yarn program || npm program) (js "types") 25%Z H2)
    as (c3 & -> & H3); [in_list|]; simpl.
  destruct (step _ (repo program) (js "repo") 1000%Z H3) as (c4 & -> & H4);
    [in_list|]; simpl.
  destruct (step _ (repo program) (js "homepage") (-1)%Z H4) as (c5 & -> & H5);
    [in_list|]; simpl.
  eauto.
Qed.

Lemma applyFlags_returns_catalog (env : Env) (program : Program)
    (cols : list Column) (filters : jsstring) :
  applyFlags program (columns env program) = inr (cols, filters) →
  catalog env program cols.
Proof.
  intros H. destruct (applyFlags_catalog env program) as (cols' & Hc & Heq).
  rewrite Heq in H. case_decide; [discriminate|]. by injection H as <- _.
Qed.

(** ** Conflicting filters *)

(** C9. When more than one of [--untyped], [--dt] and [--bundled] is given,
    [applyFlags] throws before the search, the formatting and the column
    selection: the run prints nothing on the standard output, whatever the
    search and the solver would answer, and reports the error whose message
    names the three options. *)
Theorem conflicting_filters_fail (env : Env) (program : Program) :
  (untyped program && dt program) || (untyped program && bundled program)
  || (dt program && bundled program) = true →
  applyFlags program (columns env program) = inl conflict_message ∧
  main env program = {| stdout := []; stderr := [conflict_message] |} ∧
  conflict_message = js "May only specify one of untyped,dt,bundled".
Proof.
  intros Hconflict.
  destruct (applyFlags_catalog env program) as (cols & _ & Happly).
  assert (applyFlags program (columns env program) = inl conflict_message) as H.
  { rewrite Happly. case_decide as Hsum; [done|]. exfalso. apply Hsum.
    destruct (untyped program), (dt program), (bundled program);
      simpl in *; (discriminate || lia). }
  split_and!; [done| |done].
  unfold main. by rewrite H.
Qed.

Lemma conflicting_filters_fail_witness :
  (untyped program_conflict && dt program_conflict)
  || (untyped program_conflict && bundled program_conflict)
  || (dt program_conflict && bundled program_conflict) = true ∧
  main env_fallback program_conflict
  = {| stdout := []; stderr := [conflict_message] |}.
Proof.
  split; [reflexivity|].
  apply (conflicting_filters_fail env_fallback program_conflict). reflexivity.
Defined.

(** ** Natural widths *)

Lemma table_columns_lookup (cols : list Column) (rows : list (list jsstring))
    (j : nat) (spec : Column) :
  cols !! j = Some spec →
  table_columns cols rows !! j
  = Some (toUpperCase (header spec) :: ((λ r, default [] (r !! j)) <$> rows)).
Proof.
  intros Hj. unfold table_columns. by rewrite list_lookup_imap, Hj.
Qed.

Lemma formatted_columns_lookup (cols : list Column) (rows : list (list jsstring))
    (j : nat) (spec : Column) :
  cols !! j = Some spec →
  formatted_columns cols rows !! j
  = Some (formatColumn
            (toUpperCase (header spec) :: ((λ r, default [] (r !! j)) <$> rows))
            spec).
Proof.
  intros Hj. unfold formatted_columns.
  by rewrite lookup_zip_with, (table_columns_lookup _ _ _ _ Hj), Hj.
Qed.

Lemma formatted_columns_length (cols : list Column) (rows : list (list jsstring)) :
  length (formatted_columns cols rows) = length cols.
Proof.
  unfold formatted_columns, table_columns.
  rewrite length_zip_with, length_imap. lia.
Qed.

Lemma column_of_formatResult (cols : list Column) (hits : list Hit)
    (j : nat) (spec : Column) :
  cols !! j = Some spec →
  (λ r : list jsstring, default [] (r !! j)) <$> (formatResult cols <$> hits)
  = format spec <$> hits.
Proof.
  intros Hj. rewrite <- list_fmap_compose. apply list_fmap_ext.
  intros _ h _. simpl. unfold formatResult. by rewrite list_lookup_fmap, Hj.
Qed.

Lemma table_widths_lookup (cols : list Column) (rows : list (list jsstring))
    (j : nat) (spec : Column) :
  cols !! j = Some spec →
  table_widths (formatted_columns cols rows) !! j
  = Some (Z.of_nat
            (column_width
               (toUpperCase (header spec) :: ((λ r, default [] (r !! j)) <$> rows))
               spec)).
Proof.
  intros Hj. unfold table_widths.
  rewrite list_lookup_fmap, (formatted_columns_lookup _ _ _ _ Hj). simpl.
  by rewrite length_formatCell.
Qed.

Lemma table_widths_length (cols : list Column) (rows : list (list jsstring)) :
  length (table_widths (formatted_columns cols rows)) = length cols.
Proof. unfold table_widths. by rewrite length_fmap, formatted_columns_length. Qed.

(** C8. For every catalog [applyFlags] can leave, the width [printTable]
    hands to the selection for column [j] is the greatest length among the
    header and the formatted values of that column over all hits, cut down to
    the column's [maxWidth] when it has one.  The greatest length [M] is
    attained by one of these strings and bounds them all, also when there are
    no hits; only column [j]'s definition and values occur. *)
Theorem natural_width_is_capped_max (env : Env) (program : Program)
    (cols : list Column) (hits : list Hit) (j : nat) (spec : Column) :
  catalog env program cols →
  cols !! j = Some spec →
  let vals := header spec :: (format spec <$> hits) in
  let M := max_list (length <$> vals) in
  table_widths (formatted_columns cols (formatResult cols <$> hits)) !! j
  = Some (Z.of_nat match maxWidth spec with
                   | Some w => M `min` w
                   | None => M
                   end) ∧
  (∀ v, v ∈ vals → length v ≤ M) ∧
  (∃ v, v ∈ vals ∧ length v = M).
Proof.
  intros Hc Hj vals M. split_and!.
  - rewrite (table_widths_lookup _ _ _ _ Hj), (column_of_formatResult _ _ _ _ Hj).
    unfold column_width. rewrite fmap_cons, length_toUpperCase.
    fold vals. change (length (header spec) :: (length <$> (format spec <$> hits)))
      with (length <$> vals). fold M.
    pose proof (catalog_maxWidth _ _ _ _ _ Hc Hj).
    do 2 f_equal. destruct (maxWidth spec) as [[|n]|]; [done|lia..].
  - intros v Hv. apply max_list_elem_of_le. by apply list_elem_of_fmap_2.
  - assert (M ∈ length <$> vals) as HM by (by apply max_list_elem_of).
    apply list_elem_of_fmap in HM as (v & -> & Hv). eauto.
Qed.

(** The 40-wide description column over the two sample hits: the description
    of the first has 59 code units. *)
Lemma natural_width_is_capped_max_witness :
  catalog env_fallback program_react (columns env_fallback program_react) ∧
  (∃ spec, columns env_fallback program_react !! 7 = Some spec) ∧
  table_widths
    (formatted_columns (columns env_fallback program_react)
       (formatResult (columns env_fallback program_react)
          <$> [hit_react; hit_react_dom])) !! 7
  = Some 40%Z.
Proof.
  split_and!; [apply catalog_initial|eexists; reflexivity|].
  destruct (natural_width_is_capped_max env_fallback program_react
              (columns env_fallback program_react)
              [hit_react; hit_react_dom] 7 _ (catalog_initial _ _) eq_refl)
    as [-> _].
  reflexivity.
Defined.

(** ** Formatting a hit *)

Lemma formatResult_length (cols : list Column) (h : Hit) :
  length (formatResult cols h) = length cols.
Proof. apply length_fmap. Qed.


(** Without [types] the first [types] column throws. *)
Lemma formatResult_without_types (env : Env) (program : Program) (h : Untyped.Hit) :
  Untyped.types h = None →
  Untyped.formatResult env program h = inl (CannotRead (js "ts")).
Proof. intros H. unfold Untyped.formatResult. simpl. by rewrite H. Qed.




(** ** Highlighting *)

Lemma highlightValue_absent (env : Env) (val : jsstring) :
  highlightValue env val None = val.
Proof. done. Qed.

Lemma highlightValue_none (env : Env) (val : jsstring) (d : Description) :
  matchLevel d = LevelNone → highlightValue env val (Some d) = val.
Proof. intros H. simpl. by rewrite H. Qed.

Lemma highlightValue_full (env : Env) (val : jsstring) (d : Description) :
  matchLevel d ≠ LevelNone → fullyHighlighted d = true →
  highlightValue env val (Some d) = chalk_bold (chalk_level env) val.
Proof. intros Hl Hf. simpl. rewrite Hf. by destruct (matchLevel d). Qed.

Lemma highlightValue_words (env : Env) (val : jsstring) (d : Description) :
  matchLevel d ≠ LevelNone → fullyHighlighted d = false →
  highlightValue env val (Some d) = foldl (replace_word env) val (matchedWords d).
Proof. intros Hl Hf. simpl. rewrite Hf. by destruct (matchLevel d). Qed.

(** The call returns the value, unless a word is no pattern. *)
Lemma replace_fold_thrown (env : Env) (e : jsstring) (words : list jsstring) :
  foldl (λ val word, andThen val (λ val, replace_call env val word)) (inl e) words
  = inl e.
Proof. by induction words. Qed.

Lemma replace_fold_returns (env : Env) (words : list jsstring) (val : jsstring) :
  Forall (pattern_accepted env) words →
  foldl (λ val word, andThen val (λ val, replace_call env val word)) (inr val) words
  = inr (foldl (replace_word env) val words).
Proof.
  intros H. revert val. induction H as [|w words Hw _ IH]; intros val; [done|].
  simpl. unfold replace_call at 2. rewrite Hw. apply IH.
Qed.

Lemma replace_fold_value (env : Env) (words : list jsstring) (val s : jsstring) :
  foldl (λ val word, andThen val (λ val, replace_call env val word)) (inr val) words
  = inr s →
  Forall (pattern_accepted env) words.
Proof.
  revert val. induction words as [|w words IH]; intros val H; [done|].
  simpl in H. unfold replace_call at 2 in H.
  destruct (pattern_error env w) as [e|] eqn:Hw.
  - by rewrite replace_fold_thrown in H.
  - constructor; [done|]. by apply (IH _ H).
Qed.

Lemma highlightValue_call_returns (env : Env) (val : jsstring)
    (a : option Description) :
  highlight_returns env a →
  highlightValue_call env val a = inr (highlightValue env val a).
Proof.
  destruct a as [d|]; [|done]. simpl.
  destruct (matchLevel d) eqn:Hl; [done|..];
    (destruct (fullyHighlighted d) eqn:Hf; [done|]);
    (intros [?|[?|Hw]]; [done|done|]); by apply replace_fold_returns.
Qed.

Lemma highlightValue_call_value (env : Env) (val s : jsstring)
    (a : option Description) :
  highlightValue_call env val a = inr s →
  highlight_returns env a ∧ s = highlightValue env val a.
Proof.
  intros H.
  assert (highlight_returns env a) as Hr.
  { destruct a as [d|]; [|done]. simpl in *.
    destruct (matchLevel d) eqn:Hl; [by left|..];
      (destruct (fullyHighlighted d) eqn:Hf; [right; by left|]);
      right; right; by eapply replace_fold_value. }
  split; [done|]. rewrite (highlightValue_call_returns _ _ _ Hr) in H.
  by injection H.
Qed.

(** What the terminal shows of an emphasised text is the text. *)
Lemma visible_plain (s k : jsstring) :
  ESC ∉ s → visible_go 0 (s ++ k) = s ++ visible_go 0 k.
Proof.
  induction s as [|c s IH]; intros Hs; [done|].
  assert (c ≠ ESC) as Hc by (intros ->; apply Hs; by left).
  change (visible_go 0 ((c :: s) ++ k)) with
    (if bool_decide (bold_open `prefix_of` c :: s ++ k)
     then visible_go (length bold_open - 1) (s ++ k)
     else if bool_decide (bold_close `prefix_of` c :: s ++ k)
          then visible_go (length bold_close - 1) (s ++ k)
          else c :: visible_go 0 (s ++ k)).
  rewrite !bool_decide_eq_false_2.
  - rewrite IH; [done|]. intros Hin. apply Hs. by right.
  - intros H%prefix_cons_inv_1. done.
  - intros H%prefix_cons_inv_1. done.
Qed.

Lemma visible_go_open (k : jsstring) :
  visible_go 0 (bold_open ++ k) = visible_go 0 k.
Proof. reflexivity. Qed.

Lemma visible_go_close (k : jsstring) :
  visible_go 0 (bold_close ++ k) = visible_go 0 k.
Proof. reflexivity. Qed.

Lemma reopen_go_plain (s : jsstring) : ESC ∉ s → reopen_go 0 s = s.
Proof.
  induction s as [|c s IH]; intros Hs; [done|].
  assert (c ≠ ESC) as Hc by (intros ->; apply Hs; by left).
  change (reopen_go 0 (c :: s)) with
    (if bool_decide (bold_close `prefix_of` c :: s)
     then bold_close ++ bold_open ++ reopen_go (length bold_close - 1) s
     else c :: reopen_go 0 s).
  rewrite bool_decide_eq_false_2 by (by intros H%prefix_cons_inv_1).
  rewrite IH; [done|]. intros Hin. apply Hs. by right.
Qed.

Lemma encase_lines_cons (c : N) (s : jsstring) :
  encase_lines (c :: s)
  = if bool_decide (c = LF)
    then bold_close ++ LF :: bold_open ++ encase_lines s
    else if bool_decide (c = CR ∧ head s = Some LF)
         then bold_close ++ CR :: LF :: bold_open ++ encase_lines (tail s)
         else c :: encase_lines s.
Proof.
  cbn [encase_lines]. case_bool_decide; [done|].
  destruct s as [|d s]; cbn [head tail].
  - rewrite bool_decide_eq_false_2; [done|]. by intros [_ ?].
  - case_bool_decide as H1; case_bool_decide as H2; try done.
    + exfalso. apply H2. destruct H1 as [-> ->]. done.
    + exfalso. apply H1. destruct H2 as [-> [= ->]]. done.
Qed.

Lemma visible_go_unit (c : N) (k : jsstring) :
  c ≠ ESC → visible_go 0 (c :: k) = c :: visible_go 0 k.
Proof.
  intros Hc. apply (visible_plain [c] k). by intros ?%list_elem_of_singleton.
Qed.

(** What the terminal shows of a text without escape codes that chalk has
    encased is the text. *)
Lemma visible_encase_lines (s k : jsstring) :
  ESC ∉ s → visible_go 0 (encase_lines s ++ k) = s ++ visible_go 0 k.
Proof.
  assert (∀ s, (ESC ∉ s → ∀ k, visible_go 0 (encase_lines s ++ k) = s ++ visible_go 0 k) ∧
               (ESC ∉ tail s → ∀ k, visible_go 0 (encase_lines (tail s) ++ k)
                                   = tail s ++ visible_go 0 k)) as H.
  { clear s k. induction s as [|c s [IH1 IH2]]; [by split|].
    split; [|exact IH1]. intros Hs k.
    assert (c ≠ ESC) as Hc by (intros ->; apply Hs; by left).
    assert (ESC ∉ s) as Hs' by (intros ?; apply Hs; by right).
    rewrite encase_lines_cons. case_bool_decide as Hlf.
    - subst c.
      rewrite <- app_assoc, visible_go_close, <- app_comm_cons.
      rewrite visible_go_unit by done.
      rewrite <- app_assoc, visible_go_open, <- app_comm_cons.
      f_equal. by apply IH1.
    - case_bool_decide as Hcr.
      + destruct Hcr as [-> Hhd]. destruct s as [|d s]; [done|].
        injection Hhd as ->. cbn [tail] in *.
        rewrite <- app_assoc, visible_go_close, <- !app_comm_cons.
        rewrite !visible_go_unit by done.
        rewrite <- app_assoc, visible_go_open.
        do 2 f_equal. apply IH2. intros ?. apply Hs'. by right.
      + rewrite <- !app_comm_cons, visible_go_unit by done.
        f_equal. by apply IH1. }
  intros Hs. by apply (H s).
Qed.

Lemma visible_replacement (level : bool) (w k : jsstring) :
  ESC ∉ w → visible_go 0 (chalk_bold level w ++ k) = w ++ visible_go 0 k.
Proof.
  intros Hw. unfold chalk_bold. destruct level; [|by apply visible_plain].
  destruct w as [|c w]; [done|].
  rewrite reopen_go_plain by done.
  rewrite <- !app_assoc, visible_go_open, visible_encase_lines by done.
  by rewrite visible_go_close.
Qed.

Lemma visible_bold (level : bool) (s : jsstring) :
  ESC ∉ s → visible (chalk_bold level s) = s.
Proof.
  intros Hs. unfold visible.
  rewrite <- (app_nil_r (chalk_bold level s)), visible_replacement by done.
  apply app_nil_r.
Qed.

(** Where the value is returned whole, highlighting leaves what the terminal
    shows as it was. *)
Lemma highlightValue_visible_whole (env : Env) (val : jsstring)
    (ann : option Description) :
  ESC ∉ val →
  match ann with
  | None => True
  | Some d => matchLevel d = LevelNone ∨ fullyHighlighted d = true
  end →
  visible (highlightValue env val ann) = val.
Proof.
  intros Hval Hann.
  assert (visible val = val) as Hplain by apply (visible_bold false _ Hval).
  destruct ann as [d|]; [|done].
  destruct (matchLevel d) eqn:Hl; [by rewrite highlightValue_none|..];
    (destruct Hann as [?|Hf]; [congruence|]);
    rewrite highlightValue_full by congruence; by apply visible_bold.
Qed.

(** C4, evaluated where it fails.  The value [am] with the matched words [a]
    and [m]: the first word is wrapped in the two codes of [chalk.bold]; the
    loop then replaces the second word in the decorated value, where the
    final [m] of each code is an occurrence of it too.  What is left are two
    broken codes, which the terminal has to show: 11 code units that are not
    emphasis codes, against the 2 of the value. *)
Theorem highlightValue_second_word_breaks_codes :
  highlightValue env_fallback (js "am") (Some partial_a_m)
  = (ESC :: js "[1") ++ (bold_open ++ js "m" ++ bold_close) ++ js "a"
    ++ (ESC :: js "[22") ++ (bold_open ++ js "m" ++ bold_close)
    ++ (bold_open ++ js "m" ++ bold_close) ∧
  visible (highlightValue env_fallback (js "am") (Some partial_a_m))
  = (ESC :: js "[1") ++ js "m" ++ js "a" ++ (ESC :: js "[22") ++ js "m" ++ js "m" ∧
  length (visible (highlightValue env_fallback (js "am") (Some partial_a_m))) = 11 ∧
  length (js "am") = 2.
Proof. split_and!; reflexivity. Qed.

(** C5, evaluated where it fails.  Without annotation and with a no-match
    annotation the value is returned as it is, and a full match wraps the
    whole value.  For a partial match the occurrence of a word is not wrapped
    but replaced by the wrapped word as the annotation spells it: [React]
    with the matched word [react] becomes an emphasised [react]. *)
Theorem highlightValue_replaces_occurrence_by_word :
  (∀ env val, highlightValue env val None = val) ∧
  (∀ env val full words,
     highlightValue env val
       (Some {| matchLevel := LevelNone; fullyHighlighted := full;
                matchedWords := words |}) = val) ∧
  (∀ env val words,
     highlightValue env val
       (Some {| matchLevel := LevelPartial; fullyHighlighted := true;
                matchedWords := words |}) = chalk_bold (chalk_level env) val) ∧
  (∀ env val words,
     highlightValue env val
       (Some {| matchLevel := LevelFull; fullyHighlighted := true;
                matchedWords := words |}) = chalk_bold (chalk_level env) val) ∧
  highlightValue env_fallback (js "React") (Some partial_react)
  = bold_open ++ js "react" ++ bold_close ∧
  visible (highlightValue env_fallback (js "React") (Some partial_react)) = js "react" ∧
  js "react" ≠ js "React".
Proof. split_and!; try done. Qed.

(** ** Highlighting a padded cell *)

Lemma eq_ci_space (a : N) : a ≠ space → eq_ci a space = false.
Proof.
  intros Ha. unfold eq_ci. apply bool_decide_eq_false.
  unfold upper_unit, space in *. simpl.
  destruct (97 <=? a)%N eqn:E1; destruct (a <=? 122)%N eqn:E2; simpl; try lia.
  apply N.leb_le in E1, E2. lia.
Qed.

Lemma starts_with_ci_replicate_space (w : jsstring) (k : nat) :
  w ≠ [] → space ∉ w → starts_with_ci w (replicate k space) = false.
Proof.
  destruct w as [|a w]; [done|]. intros _ Hw.
  destruct k as [|k]; [done|]. simpl.
  rewrite eq_ci_space; [done|]. intros ->. apply Hw. by left.
Qed.

Lemma starts_with_ci_pad (w s : jsstring) (k : nat) :
  space ∉ w → starts_with_ci w (s ++ replicate k space) = starts_with_ci w s.
Proof.
  revert s. induction w as [|a w IH]; intros s Hw; [by destruct s|].
  destruct s as [|b s].
  - rewrite app_nil_l. by apply starts_with_ci_replicate_space.
  - simpl. rewrite IH; [done|]. intros Hin. apply Hw. by right.
Qed.

Lemma starts_with_ci_length (w s : jsstring) :
  starts_with_ci w s = true → length w ≤ length s.
Proof.
  revert s. induction w as [|a w IH]; intros s H; simpl; [lia|].
  destruct s as [|b s]; [done|]. simpl in *.
  apply andb_true_iff in H as [_ H]. apply IH in H. lia.
Qed.

Lemma replace_go_replicate_space (w r : jsstring) (k : nat) :
  w ≠ [] → space ∉ w →
  replace_go w r 0 (replicate k space) = replicate k space.
Proof.
  intros Hne Hw. induction k as [|k IH]; simpl; [by destruct w|].
  change (space :: replicate k space) with (replicate (S k) space).
  rewrite starts_with_ci_replicate_space by done. by rewrite IH.
Qed.

Lemma replace_go_pad (w r s : jsstring) (skip k : nat) :
  w ≠ [] → space ∉ w → skip ≤ length s →
  replace_go w r skip (s ++ replicate k space)
  = replace_go w r skip s ++ replicate k space.
Proof.
  intros Hne Hw. revert skip.
  induction s as [|c s IH]; intros skip Hskip.
  { simpl in Hskip. replace skip with 0 by lia. simpl.
    rewrite replace_go_replicate_space by done. by destruct w. }
  destruct skip as [|skip].
  - change (replace_go w r 0 ((c :: s) ++ replicate k space)) with
      (if starts_with_ci w ((c :: s) ++ replicate k space) then
         match w with
         | [] => r ++ c :: replace_go w r 0 (s ++ replicate k space)
         | _ :: w' => r ++ replace_go w r (length w') (s ++ replicate k space)
         end
       else c :: replace_go w r 0 (s ++ replicate k space)).
    rewrite starts_with_ci_pad by done. simpl.
    destruct (starts_with_ci w (c :: s)) eqn:Hm.
    + destruct w as [|a w']; [done|].
      apply starts_with_ci_length in Hm. simpl in Hm.
      rewrite IH by lia. by rewrite <- app_assoc.
    + by rewrite IH by lia.
  - simpl in *. apply IH. lia.
Qed.

Lemma plain_replacement_app (r k : jsstring) :
  plain_replacement (r ++ k) = plain_replacement r && plain_replacement k.
Proof. apply forallb_app. Qed.

Lemma plain_replacement_cons (c : N) (k : jsstring) :
  plain_replacement (c :: k) = bool_decide (c ≠ 36%N) && plain_replacement k.
Proof. done. Qed.

Lemma plain_replacement_reopen (skip : nat) (s : jsstring) :
  plain_replacement s = true → plain_replacement (reopen_go skip s) = true.
Proof.
  revert skip. induction s as [|c s IH]; intros skip Hs; [done|].
  rewrite plain_replacement_cons in Hs. apply andb_true_iff in Hs as [Hc Hs].
  destruct skip as [|skip]; [|by apply IH].
  change (reopen_go 0 (c :: s)) with
    (if bool_decide (bold_close `prefix_of` c :: s)
     then bold_close ++ bold_open ++ reopen_go (length bold_close - 1) s
     else c :: reopen_go 0 s).
  destruct (bool_decide (bold_close `prefix_of` c :: s)).
  - rewrite !plain_replacement_app. by rewrite IH.
  - by rewrite plain_replacement_cons, Hc, IH.
Qed.

Lemma plain_replacement_encase (s : jsstring) :
  plain_replacement s = true → plain_replacement (encase_lines s) = true.
Proof.
  assert (∀ s, (plain_replacement s = true →
                plain_replacement (encase_lines s) = true) ∧
               (plain_replacement (tail s) = true →
                plain_replacement (encase_lines (tail s)) = true)) as H.
  { clear s. induction s as [|c s [IH1 IH2]]; [by split|].
    split; [|exact IH1]. intros Hs.
    rewrite plain_replacement_cons in Hs. apply andb_true_iff in Hs as [Hc Hs].
    rewrite encase_lines_cons.
    destruct (bool_decide (c = LF));
      [|destruct (bool_decide (c = CR ∧ head s = Some LF))].
    - rewrite plain_replacement_app, plain_replacement_cons, plain_replacement_app.
      by rewrite IH1.
    - rewrite plain_replacement_app, !plain_replacement_cons, plain_replacement_app.
      rewrite IH2; [done|]. destruct s; [done|].
      rewrite plain_replacement_cons in Hs. by apply andb_true_iff in Hs as [_ ?].
    - by rewrite plain_replacement_cons, Hc, IH1. }
  apply H.
Qed.

Lemma plain_replacement_bold (level : bool) (w : jsstring) :
  plain_word w = true → plain_replacement (chalk_bold level w) = true.
Proof.
  intros Hw.
  assert (plain_replacement w = true) as Hp.
  { unfold plain_word, plain_replacement in *. rewrite forallb_forall in *.
    intros c Hc. specialize (Hw c Hc). apply andb_true_iff in Hw as [_ Hw].
    apply bool_decide_eq_true in Hw. apply bool_decide_eq_true.
    intros ->. apply Hw. unfold pattern_syntax. in_list. }
  unfold chalk_bold. destruct level, w as [|a w]; try done.
  rewrite !plain_replacement_app.
  by rewrite plain_replacement_encase by (by apply plain_replacement_reopen).
Qed.

Lemma replace_word_pad (env : Env) (val word : jsstring) (k : nat) :
  spaceless_plain_word word →
  replace_word env (val ++ replicate k space) word
  = replace_word env val word ++ replicate k space.
Proof.
  intros (Hne & Hplain & Hsp). unfold replace_word.
  rewrite Hplain, plain_replacement_bold by done. simpl.
  unfold replace_literal. apply replace_go_pad; [done|done|lia].
Qed.

Lemma highlight_words_pad (env : Env) (words : list jsstring) (val : jsstring) (k : nat) :
  Forall spaceless_plain_word words →
  foldl (replace_word env) (val ++ replicate k space) words
  = foldl (replace_word env) val words ++ replicate k space.
Proof.
  intros Hw. revert val. induction Hw as [|w words Hw _ IH]; intros val; [done|].
  simpl. by rewrite replace_word_pad, IH.
Qed.

(** ** The picked columns *)

Lemma catalog_highlighters (env : Env) (program : Program) (cols : list Column) :
  catalog env program cols → Forall (highlights_with env) cols.
Proof.
  apply catalog_Forall; [done|].
  repeat constructor; unfold highlights_with; simpl; try done; eauto.
Qed.

Lemma catalog_annotations (env : Env) (program : Program) (cols : list Column) :
  catalog env program cols →
  Forall (λ c, match highlight c with
               | None => True
               | Some hl =>
                   hl = (λ v h, highlightValue_call env v
                                  (hl_name (_highlightResult h))) ∨
                   hl = (λ v h, highlightValue_call env v
                                  (hl_description (_highlightResult h)))
               end) cols.
Proof.
  apply catalog_Forall; [done|].
  repeat (apply Forall_cons_2; [simpl; first [done | by left | by right]|]).
  apply Forall_nil_2.
Qed.

Lemma first_error_imap_returns {E A B} (f : nat → A → E + B) (g : nat → A → B)
    (l : list A) :
  (∀ j v, l !! j = Some v → f j v = inr (g j v)) →
  first_error (imap f l) = inr (imap g l).
Proof.
  revert f g. induction l as [|x l IH]; intros f g H; [done|].
  simpl. rewrite (H 0 x eq_refl).
  rewrite (IH (f ∘ S) (g ∘ S)); [done|]. intros j v Hj. by apply (H (S j)).
Qed.

Lemma first_error_fmap_returns {E A B} (f : A → E + B) (g : A → B) (l : list A) :
  (∀ x, x ∈ l → f x = inr (g x)) → first_error (f <$> l) = inr (g <$> l).
Proof.
  induction l as [|x l IH]; intros H; [done|].
  rewrite !fmap_cons. cbn [first_error]. rewrite (H x) by (by left).
  rewrite IH; [done|]. intros y Hy. apply H. by right.
Qed.

(** Where the highlighters return, the picked column is complete. *)
Lemma pickedCol_returns (env : Env) (program : Program) (cols : list Column)
    (fc : list (list jsstring)) (hits : list Hit) (i : nat) :
  catalog env program cols →
  Forall (highlightable env) hits →
  pickedCol cols fc hits i = inr (picked_column cols fc hits i).
Proof.
  intros Hc Hhits. unfold pickedCol, picked_column.
  destruct (cols !! i) as [spec|] eqn:Hi; [|done].
  pose proof (catalog_annotations _ _ _ Hc) as Hann.
  rewrite Forall_lookup in Hann. specialize (Hann _ _ Hi). simpl in Hann.
  destruct (highlight spec) as [hl|]; [|done].
  apply first_error_imap_returns. intros [|j] v _; [done|].
  destruct (hits !! j) as [hit|] eqn:Hj; [|done].
  rewrite Forall_lookup in Hhits. destruct (Hhits _ _ Hj) as [Hname Hdesc].
  destruct Hann as [-> | ->]; cbv beta;
    by rewrite highlightValue_call_returns.
Qed.

Lemma picked_column_length (cols : list Column) (fc : list (list jsstring))
    (hits : list Hit) (i : nat) (spec : Column) (col : list jsstring) :
  cols !! i = Some spec → fc !! i = Some col →
  length (picked_column cols fc hits i) = length col.
Proof.
  intros Hi Hc. unfold picked_column. rewrite Hi, Hc. simpl.
  destruct (highlight spec); [by rewrite length_imap|done].
Qed.

Lemma picked_column_header (cols : list Column) (fc : list (list jsstring))
    (hits : list Hit) (i : nat) (spec : Column) (col : list jsstring) :
  cols !! i = Some spec → fc !! i = Some col →
  picked_column cols fc hits i !! 0 = col !! 0.
Proof.
  intros Hi Hc. unfold picked_column. rewrite Hi, Hc. simpl.
  destruct (highlight spec); [|done].
  rewrite list_lookup_imap. by destruct (col !! 0).
Qed.

Lemma picked_column_row (cols : list Column) (fc : list (list jsstring))
    (hits : list Hit) (i : nat) (spec : Column) (col : list jsstring)
    (k : nat) (hit : Hit) :
  cols !! i = Some spec → fc !! i = Some col → hits !! k = Some hit →
  picked_column cols fc hits i !! S k
  = (λ v, match highlight spec with
          | None => v
          | Some hl => value_or v (hl v hit)
          end) <$> col !! S k.
Proof.
  intros Hi Hc Hk. unfold picked_column. rewrite Hi, Hc. simpl.
  destruct (highlight spec).
  - rewrite list_lookup_imap. destruct (col !! S k); simpl; [|done]. by rewrite Hk.
  - by destruct (col !! S k).
Qed.

(** The cells of a column of the table [main] prints. *)
Lemma formatted_column_of_hits (cols : list Column) (hits : list Hit)
    (i : nat) (spec : Column) :
  cols !! i = Some spec →
  formatted_columns cols (formatResult cols <$> hits) !! i
  = Some (formatColumn (toUpperCase (header spec) :: (format spec <$> hits)) spec).
Proof.
  intros Hi.
  by rewrite (formatted_columns_lookup _ _ _ _ Hi), (column_of_formatResult _ _ _ _ Hi).
Qed.

Lemma picked_header_of_hits (cols : list Column) (hits : list Hit)
    (i : nat) (spec : Column) :
  cols !! i = Some spec →
  picked_column cols (formatted_columns cols (formatResult cols <$> hits)) hits i !! 0
  = Some (formatCell
            (column_width (toUpperCase (header spec) :: (format spec <$> hits)) spec)
            (align spec) (toUpperCase (header spec))).
Proof.
  intros Hi.
  by rewrite (picked_column_header _ _ _ _ _ _ Hi (formatted_column_of_hits _ _ _ _ Hi)).
Qed.

Lemma picked_row_of_hits (cols : list Column) (hits : list Hit)
    (i : nat) (spec : Column) (k : nat) (hit : Hit) :
  cols !! i = Some spec → hits !! k = Some hit →
  picked_column cols (formatted_columns cols (formatResult cols <$> hits)) hits i !! S k
  = Some (let aligned :=
            formatCell
              (column_width (toUpperCase (header spec) :: (format spec <$> hits)) spec)
              (align spec) (format spec hit) in
          match highlight spec with
          | None => aligned
          | Some hl => value_or aligned (hl aligned hit)
          end).
Proof.
  intros Hi Hk.
  rewrite (picked_column_row _ _ _ _ _ _ _ _ Hi (formatted_column_of_hits _ _ _ _ Hi) Hk).
  unfold formatColumn. rewrite fmap_cons. simpl.
  by rewrite !list_lookup_fmap, Hk.
Qed.

(** ** The highlight overlay *)

Lemma highlight_returns_plain (env : Env) (d : Description) :
  forallb plain_word (matchedWords d) = true → highlight_returns env (Some d).
Proof.
  intros H. right. right. apply Forall_forall. intros w Hw.
  rewrite forallb_forall in H. unfold pattern_accepted, pattern_error.
  by rewrite (H w) by (by apply list_elem_of_In).
Qed.

(** The matched words of the sample hits are plain. *)
Lemma sample_hits_highlightable :
  Forall (highlightable env_fallback) [hit_react; hit_react_dom].
Proof.
  repeat apply Forall_cons_2; [| |apply Forall_nil_2]; split;
    first [exact I | by apply highlight_returns_plain].
Qed.

(** C6, as stated, fails on a full match: the name of the first sample hit is
    fully highlighted and shorter than the column, and the emphasis wraps the
    aligned cell with its four padding spaces. *)
Lemma full_match_wraps_padding :
  picked_column (columns env_fallback program_react)
    (formatted_columns (columns env_fallback program_react)
       (formatResult (columns env_fallback program_react)
          <$> [hit_react; hit_react_dom]))
    [hit_react; hit_react_dom] 2 !! 1
  = Some (bold_open ++ (js "react" ++ replicate 4 space) ++ bold_close) ∧
  ¬ replicate 4 space `suffix_of` bold_open ++ (js "react" ++ replicate 4 space) ++ bold_close.
Proof.
  split; [reflexivity|].
  intros [k Hk].
  assert (last (k ++ replicate 4 space) = Some space) as Hlast
    by (by rewrite last_app).
  rewrite <- Hk in Hlast. discriminate Hlast.
Qed.

(** C6, amended.  The hits are such that [highlightValue] returns on their
    annotations: every matched word the loop meets is a pattern.  Then the
    callback of [printTable] returns the picked column, in which the header
    cell is the aligned upper-case header and, in a column without
    highlighter, a data cell is the aligned value: the overlay leaves both
    alone.  In a column with a highlighter, which is [highlightValue] on the
    name or the description annotation of the hit, a data cell is
    [highlightValue] applied to the aligned value, that is, to the cut value
    followed by its padding.  There the padding stays outside the emphasis
    when the annotation is absent or says no match (the cell is unchanged)
    and when the partial match has non-empty matched words of plain ASCII
    text without pattern syntax and spaces; a full match hands the whole
    aligned cell, padding included, to [chalk.bold]. *)
Theorem highlight_overlay (env : Env) (program : Program) (cols : list Column)
    (hits : list Hit) (i : nat) (spec : Column) :
  catalog env program cols →
  cols !! i = Some spec →
  Forall (highlightable env) hits →
  let w := column_width (toUpperCase (header spec) :: (format spec <$> hits)) spec in
  ∃ picked,
    pickedCol cols (formatted_columns cols (formatResult cols <$> hits)) hits i
    = inr picked ∧
    picked !! 0 = Some (formatCell w (align spec) (toUpperCase (header spec))) ∧
    (highlight spec = None →
     ∀ k hit, hits !! k = Some hit →
       picked !! S k = Some (formatCell w (align spec) (format spec hit))) ∧
    (highlight spec ≠ None →
     ∃ ann : Hit → option Description,
     (ann = (λ h, hl_name (_highlightResult h)) ∨
      ann = (λ h, hl_description (_highlightResult h))) ∧
     highlight spec = Some (λ v h, highlightValue_call env v (ann h)) ∧
     ∀ k hit, hits !! k = Some hit →
       let t := slice0 w (format spec hit) in
       let pad := replicate (w - length t) space in
       highlightValue_call env (t ++ pad) (ann hit)
       = inr (highlightValue env (t ++ pad) (ann hit)) ∧
       picked !! S k = Some (highlightValue env (t ++ pad) (ann hit)) ∧
       match ann hit with
       | None => highlightValue env (t ++ pad) (ann hit) = t ++ pad
       | Some d =>
           match matchLevel d with
           | LevelNone => highlightValue env (t ++ pad) (ann hit) = t ++ pad
           | LevelPartial | LevelFull =>
               if fullyHighlighted d
               then highlightValue env (t ++ pad) (ann hit)
                    = chalk_bold (chalk_level env) (t ++ pad)
               else Forall spaceless_plain_word (matchedWords d) →
                    highlightValue env (t ++ pad) (ann hit)
                    = highlightValue env t (ann hit) ++ pad
           end
       end).
Proof.
  intros Hc Hi Hhits w.
  exists (picked_column cols (formatted_columns cols (formatResult cols <$> hits))
            hits i).
  split_and!.
  - by apply (pickedCol_returns env program).
  - apply (picked_header_of_hits _ _ _ _ Hi).
  - intros Hn k hit Hk.
    rewrite (picked_row_of_hits _ _ _ _ _ _ Hi Hk). simpl. by rewrite Hn.
  - intros Hn.
    pose proof (catalog_highlighters _ _ _ Hc) as Hhl.
    rewrite Forall_lookup in Hhl. specialize (Hhl _ _ Hi).
    unfold highlights_with in Hhl.
    pose proof (catalog_annotations _ _ _ Hc) as Hann.
    rewrite Forall_lookup in Hann. specialize (Hann _ _ Hi). simpl in Hann.
    destruct (highlight spec) as [hl|] eqn:Hspec; [|done].
    destruct Hhl as (Halign & _).
    assert (∃ ann : Hit → option Description,
              (ann = (λ h, hl_name (_highlightResult h)) ∨
               ann = (λ h, hl_description (_highlightResult h))) ∧
              hl = (λ v h, highlightValue_call env v (ann h)))
      as (ann & Hwhich & ->).
    { destruct Hann as [-> | ->].
      - exists (λ h, hl_name (_highlightResult h)). split; [by left|done].
      - exists (λ h, hl_description (_highlightResult h)). split; [by right|done]. }
    exists ann. split_and!; [done|done|].
    intros k hit Hk t pad.
    assert (highlight_returns env (ann hit)) as Hret.
    { rewrite Forall_lookup in Hhits. destruct (Hhits _ _ Hk) as [Hname Hdesc].
      by destruct Hwhich as [-> | ->]. }
    split_and!.
    + by apply highlightValue_call_returns.
    + rewrite (picked_row_of_hits _ _ _ _ _ _ Hi Hk). simpl.
      rewrite Hspec, Halign. cbv beta.
      change (formatCell w None (format spec hit)) with (t ++ pad).
      by rewrite highlightValue_call_returns.
    + subst t pad. destruct (ann hit) as [d|]; [|done].
      destruct (matchLevel d) eqn:Hl; [by apply highlightValue_none| |];
        (destruct (fullyHighlighted d) eqn:Hf;
         [apply highlightValue_full; congruence|]);
        intros Hw; rewrite !highlightValue_words by congruence;
        by apply highlight_words_pad.
Qed.

Lemma highlight_overlay_witness :
  catalog env_fallback program_react (columns env_fallback program_react) ∧
  (∃ spec, columns env_fallback program_react !! 2 = Some spec) ∧
  Forall (highlightable env_fallback) [hit_react; hit_react_dom] ∧
  ∃ picked,
    pickedCol (columns env_fallback program_react)
      (formatted_columns (columns env_fallback program_react)
         (formatResult (columns env_fallback program_react)
            <$> [hit_react; hit_react_dom]))
      [hit_react; hit_react_dom] 2
    = inr picked ∧
    picked !! 0 = Some (js "NAME     ").
Proof.
  split_and!; [apply catalog_initial|eexists; reflexivity
              |exact sample_hits_highlightable|].
  destruct (highlight_overlay env_fallback program_react
              (columns env_fallback program_react) [hit_react; hit_react_dom] 2 _
              (catalog_initial _ _) eq_refl sample_hits_highlightable)
    as (picked & Hpicked & Hheader & _).
  exists picked. split; [exact Hpicked|]. rewrite Hheader. reflexivity.
Defined.

(** ** The table *)

(** [printTable] when the highlighters return. *)
Lemma printTable_returns (env : Env) (program : Program) (cols : list Column)
    (rows : list (list jsstring)) (hits : list Hit) :
  catalog env program cols →
  Forall (highlightable env) hits →
  printTable env program cols rows hits
  = ((pickColumns env program cols (table_widths (formatted_columns cols rows))).1
     ++ (table_line
           (picked_column cols (formatted_columns cols rows) hits
              <$> (pickColumns env program cols
                     (table_widths (formatted_columns cols rows))).2)
           <$> seq 0 (S (length rows))),
     None).
Proof.
  intros Hc Hhits. unfold printTable.
  destruct (pickColumns env program cols (table_widths (formatted_columns cols rows)))
    as [logs sel].
  rewrite (first_error_fmap_returns _
             (picked_column cols (formatted_columns cols rows) hits)); [done|].
  intros i _. by apply (pickedCol_returns env program).
Qed.

Lemma pickColumns_logs (env : Env) (program : Program) (cols : list Column)
    (widths : list Z) :
  (pickColumns env program cols widths).1
  = if debug program
    then [[AStr (js "Column LP model:"); AModel (lp_model env cols widths)];
          [AStr (js "LP result:"); AResult (Solve env (lp_model env cols widths))]]
    else [].
Proof. unfold pickColumns. simpl. by destruct (debug program). Qed.

Lemma line_feeds_app (a b : jsstring) :
  line_feeds (a ++ b) = line_feeds a + line_feeds b.
Proof. unfold line_feeds. by rewrite filter_app, length_app. Qed.

(** Joining cells with a space adds no line feed. *)
Lemma line_feeds_join (l : list jsstring) :
  line_feeds (join (js " ") l) = sum_list (line_feeds <$> l).
Proof.
  induction l as [|x l IH]; [done|].
  destruct l as [|y l]; [simpl; lia|].
  change (join (js " ") (x :: y :: l)) with (x ++ js " " ++ join (js " ") (y :: l)).
  rewrite !line_feeds_app, IH. rewrite fmap_cons. simpl sum_list. done.
Qed.

(** C7, as stated, fails in three ways.  The description of the first hit
    has a line feed, and the three description columns of the fallback
    selection show it: [printTable] logs the header and one row for the one
    hit, and the terminal gets five lines, not two.  The description of the
    second hit matches the word [c++], which is no pattern: [highlightValue]
    throws while the columns are picked, and [printTable] logs no line at
    all.  And under [--debug] [printTable] logs five entries for the two
    sample hits, the first being the dump of the LP model, not the header
    line. *)
Lemma table_lines_are_not_output_lines :
  printed_lines
    <$> (printTable env_fallback program_react (columns env_fallback program_react)
           (formatResult (columns env_fallback program_react) <$> [hit_two_lines])
           [hit_two_lines]).1
  = [Some 1; Some 4] ∧
  1 + 4 ≠ length [hit_two_lines] + 1 ∧
  printTable env_fallback program_react (columns env_fallback program_react)
    (formatResult (columns env_fallback program_react) <$> [hit_cpp]) [hit_cpp]
  = ([], Some (js "Invalid regular expression: /c++/: Nothing to repeat")) ∧
  main {| Solve := Solve env_fallback; decode := decode env_fallback;
          moment_format := moment_format env_fallback;
          moment_fromNow := moment_fromNow env_fallback;
          now := now env_fallback;
          RegExp_error := RegExp_error env_fallback;
          replace_pattern := replace_pattern env_fallback;
          search := λ _ _, inr [hit_cpp];
          elapsedMs := elapsedMs env_fallback;
          stdout_columns := stdout_columns env_fallback;
          chalk_level := chalk_level env_fallback |} program_react
  = {| stdout := [];
       stderr := [js "Invalid regular expression: /c++/: Nothing to repeat"] |} ∧
  length (printTable env_fallback program_debug (columns env_fallback program_debug)
            (formatResult (columns env_fallback program_debug)
               <$> [hit_react; hit_react_dom])
            [hit_react; hit_react_dom]).1 = 5 ∧
  ∃ model,
    head (printTable env_fallback program_debug (columns env_fallback program_debug)
            (formatResult (columns env_fallback program_debug)
               <$> [hit_react; hit_react_dom])
            [hit_react; hit_react_dom]).1
    = Some [AStr (js "Column LP model:"); AModel model].
Proof.
  split_and!; [reflexivity|done|reflexivity|reflexivity|reflexivity|].
  eexists. reflexivity.
Qed.

(** C7, amended.  The hits are those the search returns, and such that
    [highlightValue] returns on their annotations: every matched word the
    loop meets is a pattern.  Then [printTable] throws nothing and calls
    [console.log] for the header line and then once per hit, in the order of
    the hits and no more: [length hits + 1] calls, each with the cells of the
    selected columns in that row joined by one space, the cell of a hit being
    its aligned and, where the column has a highlighter, highlighted value.
    A call prints one line and one more for every line feed in its cells, so
    the table takes [length hits + 1] lines of output when no cell has a line
    feed.  Under [--debug] the two entries of [pickColumns] (the LP model and
    the LP result) come before the header line, otherwise nothing does.
    [main] calls [printTable] only when there is a hit; without hits it logs
    the no-results notice and no line of a table. *)
Theorem printTable_header_then_rows (env : Env) (program : Program)
    (cols : list Column) (filters : jsstring) (hits : list Hit) :
  applyFlags program (columns env program) = inr (cols, filters) →
  search env (join (js " ") (args program)) (search_options program filters)
  = inr hits →
  Forall (highlightable env) hits →
  let rows := formatResult cols <$> hits in
  let fc := formatted_columns cols rows in
  let widths := table_widths fc in
  let sel := (pickColumns env program cols widths).2 in
  let cell (i r : nat) : jsstring := default [] (picked_column cols fc hits i !! r) in
  let text (r : nat) : jsstring := join (js " ") ((λ i, cell i r) <$> sel) in
  let line (r : nat) : logged := [AStr (text r)] in
  let table := line 0 :: ((λ k, line (S k)) <$> seq 0 (length hits)) in
  let dbg : list logged :=
    if debug program
    then [[AStr (js "Column LP model:"); AModel (lp_model env cols widths)];
          [AStr (js "LP result:"); AResult (Solve env (lp_model env cols widths))]]
    else [] in
  printTable env program cols rows hits = (dbg ++ table, None) ∧
  length table = S (length hits) ∧
  (∀ i spec, cols !! i = Some spec →
     let w := column_width (toUpperCase (header spec) :: (format spec <$> hits)) spec in
     cell i 0 = formatCell w (align spec) (toUpperCase (header spec)) ∧
     ∀ k hit, hits !! k = Some hit →
       match highlight spec with
       | None => cell i (S k) = formatCell w (align spec) (format spec hit)
       | Some hl =>
           hl (formatCell w (align spec) (format spec hit)) hit = inr (cell i (S k))
       end) ∧
  (∀ r, printed_lines (line r)
        = Some (S (sum_list ((λ i, line_feeds (cell i r)) <$> sel)))) ∧
  ((∀ i r, i ∈ sel → line_feeds (cell i r) = 0) →
   Forall (λ call, printed_lines call = Some 1) table) ∧
  main env program
  = {| stdout :=
         (if debug program
          then [[AStr (js "Algolia responded in"); ANum (elapsedMs env);
                 AStr (js "ms")]]
          else [])
         ++ match hits with
            | [] => [[AStr no_results_message]]
            | _ :: _ =>
                (if debug program
                 then [[AStr (got_message (length hits))]; [AResponse hits]]
                 else [])
                ++ (dbg ++ table)
                ++ (if decide (Z.of_nat (length hits) < num program)%Z
                    then [[AStr (only_message (length hits))]]
                    else [])
            end;
       stderr := [] |}.
Proof.
  intros Hflags Hsearch Hhits rows fc widths sel cell text line table dbg.
  pose proof (applyFlags_returns_catalog _ _ _ _ Hflags) as Hc.
  assert (∀ r, line_feeds (text r) = sum_list ((λ i, line_feeds (cell i r)) <$> sel))
    as Hfeeds.
  { intros r. unfold text. by rewrite line_feeds_join, <- list_fmap_compose. }
  assert (printTable env program cols rows hits = (dbg ++ table, None)) as Hprint.
  { rewrite (printTable_returns _ _ _ _ _ Hc Hhits), pickColumns_logs.
    fold rows fc widths sel dbg. do 2 f_equal.
    unfold rows at 1. rewrite length_fmap. rewrite <- cons_seq, fmap_cons.
    unfold table. f_equal.
    + unfold table_line, line, text. do 2 f_equal. by rewrite <- list_fmap_compose.
    + rewrite <- fmap_S_seq, <- list_fmap_compose. apply list_fmap_ext.
      intros _ k _. simpl. unfold table_line, line, text. do 2 f_equal.
      by rewrite <- list_fmap_compose. }
  split_and!.
  - exact Hprint.
  - unfold table. simpl. by rewrite length_fmap, length_seq.
  - intros i spec Hi w. unfold cell, fc, rows. split.
    + by rewrite (picked_header_of_hits _ _ _ _ Hi).
    + intros k hit Hk. rewrite (picked_row_of_hits _ _ _ _ _ _ Hi Hk). simpl.
      pose proof (catalog_annotations _ _ _ Hc) as Hann.
      rewrite Forall_lookup in Hann. specialize (Hann _ _ Hi). simpl in Hann.
      destruct (highlight spec) as [hl|]; [|done].
      rewrite Forall_lookup in Hhits. destruct (Hhits _ _ Hk) as [Hname Hdesc].
      subst w.
      destruct Hann as [-> | ->]; cbv beta;
        by rewrite !highlightValue_call_returns by done.
  - intros r. unfold line. simpl. by rewrite Hfeeds.
  - intros Hnone.
    assert (∀ r, line_feeds (text r) = 0) as Hzero.
    { intros r. rewrite Hfeeds.
      assert (∀ l : list nat, (∀ i, i ∈ l → line_feeds (cell i r) = 0) →
                sum_list ((λ i, line_feeds (cell i r)) <$> l) = 0) as Hsum.
      { induction l as [|i l IH]; intros H; [done|].
        rewrite fmap_cons. simpl sum_list.
        rewrite (H i) by (by left). rewrite IH; [done|].
        intros j Hj. apply H. by right. }
      apply Hsum. intros i Hi. by apply Hnone. }
    assert (∀ r, printed_lines (line r) = Some 1) as Hone.
    { intros r. unfold line. simpl. by rewrite Hzero. }
    unfold table. constructor; [apply Hone|].
    apply Forall_fmap, Forall_forall. intros k _. apply Hone.
  - unfold main. rewrite Hflags, Hsearch. destruct hits as [|hit hits']; [done|].
    fold rows. by rewrite Hprint.
Qed.

Lemma printTable_header_then_rows_witness :
  applyFlags program_react (columns env_fallback program_react)
  = inr (columns env_fallback program_react, FILTERS_default) ∧
  search env_fallback (join (js " ") (args program_react))
    (search_options program_react FILTERS_default)
  = inr [hit_react; hit_react_dom] ∧
  Forall (highlightable env_fallback) [hit_react; hit_react_dom] ∧
  length (stdout (main env_fallback program_react)) = 4 ∧
  stderr (main env_fallback program_react) = [].
Proof.
  split_and!; [reflexivity|reflexivity|exact sample_hits_highlightable| |].
  - pose proof (printTable_header_then_rows env_fallback program_react
                  (columns env_fallback program_react) FILTERS_default
                  [hit_react; hit_react_dom] eq_refl eq_refl
                  sample_hits_highlightable) as (_ & _ & _ & _ & _ & ->).
    reflexivity.
  - reflexivity.
Defined.

(** ** Selections as lists of indices *)

Lemma selected_indices_offset {A} (p : nat → A → bool) (l : list A) (k : nat) :
  let sel := filter_nonNullish
               (imap (λ i c, if p (k + i) c then Some (k + i) else None) l) in
  (∀ j, j ∈ sel ↔ ∃ i c, j = k + i ∧ l !! i = Some c ∧ p j c = true) ∧
  StronglySorted lt sel.
Proof.
  revert k. induction l as [|x l IH]; intros k; simpl.
  { split; [|constructor]. intros j. split; [by intros ?%elem_of_nil|].
    by intros (i & c & _ & ? & _). }
  unfold filter_nonNullish in *. simpl.
  destruct (IH (S k)) as [IHm IHs].
  assert (imap ((λ i c, if p (k + i) c then Some (k + i) else None) ∘ S) l
          = imap (λ i c, if p (S k + i) c then Some (S k + i) else None) l) as ->.
  { apply imap_ext. intros i c _. simpl. by replace (k + S i) with (S (k + i)) by lia. }
  assert (∀ j, j ∈ omap id (imap (λ i c, if p (S k + i) c then Some (S k + i) else None) l)
               → k < j) as Hlt.
  { intros j (i & c & -> & _)%IHm. lia. }
  replace (k + 0) with k by lia.
  split.
  - intros j. destruct (p k x) eqn:Hp; simpl;
      rewrite ?elem_of_cons, IHm; split.
    + intros [->|(i & c & -> & Hi & Hpi)].
      * exists 0, x. by replace (k + 0) with k by lia.
      * exists (S i), c. by replace (k + S i) with (S k + i) by lia.
    + intros ([|i] & c & -> & Hi & Hpi).
      * left. lia.
      * right. exists i, c. by replace (S k + i) with (k + S i) by lia.
    + intros (i & c & -> & Hi & Hpi).
      exists (S i), c. by replace (k + S i) with (S k + i) by lia.
    + intros ([|i] & c & -> & Hi & Hpi).
      * simpl in Hi. injection Hi as <-. replace (k + 0) with k in Hpi by lia.
        congruence.
      * exists i, c. by replace (S k + i) with (k + S i) by lia.
  - destruct (p k x); simpl; [|done].
    constructor; [done|]. apply Forall_forall. intros j Hj. by apply Hlt.
Qed.

Lemma selected_indices {A} (p : nat → A → bool) (l : list A) :
  let sel := filter_nonNullish (imap (λ i c, if p i c then Some i else None) l) in
  (∀ j, j ∈ sel ↔ ∃ c, l !! j = Some c ∧ p j c = true) ∧
  StronglySorted lt sel.
Proof.
  destruct (selected_indices_offset p l 0) as [Hm Hs]. simpl in *. split; [|done].
  intros j. rewrite Hm. split.
  - intros (i & c & -> & ? & ?). eauto.
  - intros (c & ? & ?). eauto.
Qed.

Lemma StronglySorted_lt_NoDup (l : list nat) : StronglySorted lt l → NoDup l.
Proof.
  induction 1 as [|x l _ IH Hx]; constructor; [|done].
  intros Hin. rewrite Forall_forall in Hx. specialize (Hx _ Hin). lia.
Qed.

(** ** The fallback *)

Lemma pickColumns_infeasible (env : Env) (program : Program)
    (cols : list Column) (widths : list Z) :
  feasible (Solve env (lp_model env cols widths)) = false →
  (pickColumns env program cols widths).2
  = filter_nonNullish
      (imap (λ i c, if (25 <=? importance c)%Z then Some i else None) cols).
Proof. intros Hf. unfold pickColumns. simpl. by rewrite Hf. Qed.

(** C2. When the solver reports the model infeasible, [pickColumns] returns
    (it is a total function: nothing is thrown) the indices of exactly the
    columns whose importance is at least 25, in catalog order and each once,
    whatever the widths, the terminal and the mutex groups are; the same
    catalog gives the same selection under any other widths and
    environment on which the solver reports infeasibility. *)
Theorem pickColumns_fallback (env : Env) (program : Program)
    (cols : list Column) (widths : list Z) :
  feasible (Solve env (lp_model env cols widths)) = false →
  let sel := (pickColumns env program cols widths).2 in
  (∀ i, i ∈ sel ↔ ∃ c, cols !! i = Some c ∧ (25 ≤ importance c)%Z) ∧
  StronglySorted lt sel ∧
  ∀ env' program' widths',
    feasible (Solve env' (lp_model env' cols widths')) = false →
    (pickColumns env' program' cols widths').2 = sel.
Proof.
  intros Hf sel. unfold sel. rewrite (pickColumns_infeasible _ _ _ _ Hf).
  destruct (selected_indices (λ _ c, (25 <=? importance c)%Z) cols) as [Hm Hs].
  split_and!; [|done|].
  - intros i. rewrite Hm. by setoid_rewrite Z.leb_le.
  - intros env' program' widths' Hf'. by rewrite (pickColumns_infeasible _ _ _ _ Hf').
Qed.

Lemma pickColumns_fallback_witness :
  feasible (Solve env_fallback (lp_model env_fallback (columns env_fallback program_react)
                                         (replicate 14 10%Z))) = false ∧
  ∀ i, i ∈ (pickColumns env_fallback program_react (columns env_fallback program_react)
                        (replicate 14 10%Z)).2
       ↔ ∃ c, columns env_fallback program_react !! i = Some c ∧ (25 ≤ importance c)%Z.
Proof.
  split; [reflexivity|].
  apply (pickColumns_fallback env_fallback program_react
           (columns env_fallback program_react) (replicate 14 10%Z)).
  reflexivity.
Defined.

(** ** Sums *)

Lemma sumZ_cons (x : Z) (l : list Z) : sumZ (x :: l) = (x + sumZ l)%Z.
Proof. done. Qed.

Lemma sumZ_Permutation (l k : list Z) : l ≡ₚ k → sumZ l = sumZ k.
Proof. induction 1; rewrite ?sumZ_cons; lia. Qed.

Lemma total_Permutation (f : nat → Z) (l k : list nat) :
  l ≡ₚ k → total f l = total f k.
Proof. intros H. unfold total. apply sumZ_Permutation. by rewrite H. Qed.

(** A sum weighted by a 0/1 vector is the sum over the entries that are 1. *)
Lemma sumZ_zero_one {A} (c x : A → Z) (P : A → Prop) `{∀ a, Decision (P a)}
    (l : list A) :
  (∀ a, a ∈ l → x a = if decide (P a) then 1%Z else 0%Z) →
  sumZ ((λ a, c a * x a)%Z <$> l) = sumZ (c <$> filter P l).
Proof.
  induction l as [|a l IH]; intros Hx; [done|].
  rewrite fmap_cons, filter_cons, sumZ_cons.
  rewrite IH by (intros b Hb; apply Hx; by right).
  rewrite (Hx a) by by left.
  destruct (decide (P a)); rewrite ?fmap_cons, ?sumZ_cons; lia.
Qed.

Lemma sumZ_count {A} (P : A → Prop) `{∀ a, Decision (P a)} (l : list A) :
  sumZ ((λ a, if decide (P a) then 1%Z else 0%Z) <$> l)
  = Z.of_nat (length (filter P l)).
Proof.
  induction l as [|a l IH]; [done|].
  rewrite fmap_cons, filter_cons, sumZ_cons, IH.
  destruct (decide (P a)); simpl; lia.
Qed.

Lemma sumZ_single (n i : nat) (c : Z) :
  i < n →
  sumZ ((λ j, if decide (j = i) then c else 0%Z) <$> seq 0 n) = c.
Proof.
  intros Hi.
  assert (∀ k m, sumZ ((λ j, if decide (j = i) then c else 0%Z) <$> seq k m)
                 = if decide (k ≤ i < k + m) then c else 0%Z) as H.
  { intros k m. revert k. induction m as [|m IH]; intros k.
    - simpl. case_decide; [lia|done].
    - rewrite <- cons_seq, fmap_cons, sumZ_cons, IH. repeat case_decide; lia. }
  rewrite H. case_decide; [done|lia].
Qed.

(** ** Objects built by assignment *)

Lemma fromPairs_snoc {V} (l : list (jsstring * V)) (kv : jsstring * V) :
  fromPairs (l ++ [kv]) = <[kv.1 := kv.2]> (fromPairs l).
Proof. unfold fromPairs. by rewrite foldl_app. Qed.

Lemma fromPairs_lookup_None {V} (l : list (jsstring * V)) (k : jsstring) :
  k ∉ l.*1 → fromPairs l !! k = None.
Proof.
  induction l as [|kv l IH] using rev_ind; intros Hk; [done|].
  rewrite fromPairs_snoc. rewrite fmap_app, elem_of_app in Hk.
  rewrite lookup_insert_ne; [apply IH; tauto|].
  intros <-. apply Hk. right. simpl. by left.
Qed.

Lemma fromPairs_to_list {V} (l : list (jsstring * V)) :
  NoDup l.*1 → map_to_list (fromPairs l) ≡ₚ l.
Proof.
  induction l as [|kv l IH] using rev_ind; intros Hnd.
  { unfold fromPairs. simpl. by rewrite map_to_list_empty. }
  rewrite fmap_app in Hnd. apply NoDup_app in Hnd as (Hl & Hkv & _).
  rewrite fromPairs_snoc, map_to_list_insert.
  - rewrite IH by done. destruct kv. simpl. by rewrite Permutation_cons_append.
  - apply fromPairs_lookup_None. intros Hin. apply (Hkv _ Hin). simpl. by left.
Qed.

(** Pairs whose value is a function of the key. *)
Lemma fromPairs_lookup_fn {V} (f : jsstring → V) (ks : list jsstring) (k : jsstring) :
  fromPairs ((λ m, (m, f m)) <$> ks) !! k
  = if decide (k ∈ ks) then Some (f k) else None.
Proof.
  induction ks as [|m ks IH] using rev_ind.
  { case_decide as H; [by apply elem_of_nil in H|done]. }
  rewrite fmap_app. simpl. rewrite fromPairs_snoc. simpl.
  destruct (decide (m = k)) as [->|Hne].
  - rewrite lookup_insert_eq. rewrite decide_True; [done|].
    apply elem_of_app. right. by left.
  - rewrite lookup_insert_ne by done. rewrite IH.
    destruct (decide (k ∈ ks)) as [Hin|Hnin].
    + rewrite decide_True; [done|]. apply elem_of_app. by left.
    + rewrite decide_False; [done|].
      intros [?|Hm%list_elem_of_singleton]%elem_of_app; [done|]. congruence.
Qed.

Lemma foldl_insert_snoc {A V} (k : A → jsstring) (v : A → V)
    (o : gmap jsstring V) (l : list A) (x : A) :
  foldl (λ o x, <[k x := v x]> o) o (l ++ [x])
  = <[k x := v x]> (foldl (λ o x, <[k x := v x]> o) o l).
Proof. by rewrite foldl_app. Qed.

Lemma foldl_insert_lookup_other {A V} (k : A → jsstring) (v : A → V)
    (o : gmap jsstring V) (l : list A) (c : jsstring) :
  (∀ x, x ∈ l → k x ≠ c) →
  foldl (λ o x, <[k x := v x]> o) o l !! c = o !! c.
Proof.
  induction l as [|x l IH] using rev_ind; intros Hc; [done|].
  rewrite foldl_insert_snoc, lookup_insert_ne.
  - apply IH. intros y Hy. apply Hc, elem_of_app. by left.
  - apply Hc, elem_of_app. right. by left.
Qed.

Lemma foldl_insert_lookup_inv {A V} (k : A → jsstring) (v : A → V)
    (o : gmap jsstring V) (l : list A) (c : jsstring) (con : V) :
  foldl (λ o x, <[k x := v x]> o) o l !! c = Some con →
  (∃ x, x ∈ l ∧ k x = c ∧ con = v x) ∨ o !! c = Some con.
Proof.
  induction l as [|x l IH] using rev_ind; intros Hc; [by right|].
  rewrite foldl_insert_snoc in Hc.
  destruct (decide (k x = c)) as [<-|Hne].
  - rewrite lookup_insert_eq in Hc. injection Hc as <-.
    left. exists x. split; [|done]. apply elem_of_app. right. by left.
  - rewrite lookup_insert_ne in Hc by done.
    destruct (IH Hc) as [(y & Hy & ? & ?)|?]; [|by right].
    left. exists y. split; [|done]. apply elem_of_app. by left.
Qed.

Lemma foldl_insert_lookup_in {A V} (k : A → jsstring) (v : A → V)
    (o : gmap jsstring V) (l : list A) (x : A) :
  x ∈ l →
  ∃ y, y ∈ l ∧ k y = k x ∧
       foldl (λ o x, <[k x := v x]> o) o l !! k x = Some (v y).
Proof.
  induction l as [|z l IH] using rev_ind; intros Hx; [by apply elem_of_nil in Hx|].
  rewrite foldl_insert_snoc.
  destruct (decide (k z = k x)) as [Heq|Hne].
  - exists z. rewrite <- Heq, lookup_insert_eq.
    split_and!; [|done|done]. apply elem_of_app. right. by left.
  - rewrite lookup_insert_ne by done.
    apply elem_of_app in Hx as [Hx|Hx].
    + destruct (IH Hx) as (y & Hy & ? & ?). exists y.
      split_and!; [|done|done]. apply elem_of_app. by left.
    + apply list_elem_of_singleton in Hx as ->. done.
Qed.

(** ** The names of the model *)

Lemma js_inj : Inj (=) (=) js.
Proof.
  intros s1 s2 H. unfold js in H.
  assert (Inj (=) (=) N_of_ascii) as Hinj.
  { intros a b Hab. by rewrite <- (ascii_N_embedding a), Hab, ascii_N_embedding. }
  apply (inj (fmap N_of_ascii)) in H.
  by rewrite <- (string_of_list_ascii_of_string s1), H, string_of_list_ascii_of_string.
Qed.

Lemma num_str_inj : Inj (=) (=) num_str.
Proof. intros i j H. unfold num_str in H. by apply js_inj, (inj pretty) in H. Qed.

#[local] Existing Instance num_str_inj.

Lemma set_keys_elem_of (seen a : list jsstring) (x : jsstring) :
  x ∈ set_keys seen a ↔ x ∈ a ∧ x ∉ seen.
Proof.
  revert seen. induction a as [|y a IH]; intros seen; simpl.
  { split; [by intros ?%elem_of_nil|by intros [?%elem_of_nil _]]. }
  case_decide as Hy.
  - rewrite IH, elem_of_cons. split; [tauto|].
    intros [[->|?] ?]; [done|tauto].
  - rewrite !elem_of_cons, IH, elem_of_cons. split.
    + intros [->|[? ?]]; [tauto|]. tauto.
    + intros [[->|?] ?]; [tauto|].
      destruct (decide (x = y)); [tauto|]. right. tauto.
Qed.

Lemma mutexes_of_elem_of (cols : list Column) (g : jsstring) :
  g ∈ mutexes_of cols ↔ ∃ c, c ∈ cols ∧ mutexGroup c = Some g.
Proof.
  unfold mutexes_of, filter_nonNullish.
  rewrite set_keys_elem_of, list_elem_of_omap. split.
  - intros [(o & Ho & Hid) _]. simpl in Hid. subst o.
    apply list_elem_of_fmap in Ho as (c & ? & ?). eauto.
  - intros (c & Hc & Hg). split; [|by intros ?%elem_of_nil].
    exists (Some g). split; [|done]. rewrite <- Hg. by apply list_elem_of_fmap_2.
Qed.

Lemma imap_as_seq {A B} (f : nat → A → B) (d : B) (l : list A) :
  imap f l = (λ i, from_option (f i) d (l !! i)) <$> seq 0 (length l).
Proof.
  apply list_eq. intros i.
  rewrite list_lookup_imap, list_lookup_fmap.
  destruct (l !! i) as [c|] eqn:Hi; simpl.
  - rewrite lookup_seq_lt by (by eapply lookup_lt_Some). simpl. by rewrite Hi.
  - rewrite lookup_seq_ge; [done|]. by apply lookup_ge_None.
Qed.

(** The selection read off a 0/1 vector. *)
Lemma selected_as_filter {A} (p : nat → bool) (l : list A) :
  filter_nonNullish (imap (λ i _, if p i then Some i else None) l)
  = filter (λ i, p i = true) (seq 0 (length l)).
Proof.
  assert (∀ k, filter_nonNullish
                 (imap (λ i _, if p (k + i) then Some (k + i) else None) l)
               = filter (λ i, p i = true) (seq k (length l))) as H.
  { induction l as [|x l IH]; intros k; [done|].
    simpl. rewrite filter_cons. unfold filter_nonNullish in *. simpl.
    replace (k + 0) with k by lia.
    rewrite <- (IH (S k)).
    rewrite (imap_ext _ (λ i _, if p (S k + i) then Some (S k + i) else None));
      [|intros i ? _; simpl; by replace (k + S i) with (S (k + i)) by lia].
    destruct (p k); by case_decide. }
  apply (H 0).
Qed.

(** ** The model of [pickColumns] *)

Section LPModel.
Context (env : Env) (cols : list Column) (widths : list Z).
Hypothesis Hnames : names_apart cols.

Lemma variable_names :
  (imap (λ i c, (num_str i, lp_variable cols widths i c)) cols).*1
  = num_str <$> seq 0 (length cols).
Proof. rewrite fmap_imap. exact (imap_seq_0 cols num_str). Qed.

Lemma variables_to_list :
  map_to_list (variables (lp_model env cols widths))
  ≡ₚ imap (λ i c, (num_str i, lp_variable cols widths i c)) cols.
Proof.
  apply fromPairs_to_list. rewrite variable_names.
  apply NoDup_fmap_2; [apply _|apply NoDup_seq].
Qed.

Lemma variables_lookup (i : nat) (c : Column) :
  cols !! i = Some c →
  variables (lp_model env cols widths) !! num_str i
  = Some (lp_variable cols widths i c).
Proof.
  intros Hi. apply elem_of_map_to_list. rewrite variables_to_list.
  by apply (elem_of_lookup_imap_2 (λ i c, (num_str i, lp_variable cols widths i c))).
Qed.

Lemma lhs_seq (a : jsstring) (x : jsstring → Z) :
  lhs (lp_model env cols widths) a x
  = sumZ ((λ i, coefficient cols widths a i * x (num_str i))%Z
          <$> seq 0 (length cols)).
Proof.
  unfold lhs.
  rewrite (sumZ_Permutation _ _ (fmap_Permutation _ _ _ variables_to_list)).
  rewrite fmap_imap, (imap_as_seq _ 0%Z). f_equal.
  apply list_fmap_ext. intros _ i _. unfold coefficient.
  destruct (cols !! i); simpl; lia.
Qed.

Lemma mutex_pairs_lookup (c : Column) (k : jsstring) :
  fromPairs ((λ m, (m, if decide (mutexGroup c = Some m) then 1 else 0)%Z)
             <$> mutexes_of cols) !! k
  = if decide (k ∈ mutexes_of cols)
    then Some (if decide (mutexGroup c = Some k) then 1 else 0)%Z
    else None.
Proof.
  apply (fromPairs_lookup_fn
           (λ m, if decide (mutexGroup c = Some m) then 1 else 0)%Z).
Qed.

Lemma coefficient_mutex (g : jsstring) (i : nat) :
  g ∈ mutexes_of cols →
  coefficient cols widths g i
  = if decide (cols !! i ≫= mutexGroup = Some g) then 1%Z else 0%Z.
Proof.
  intros Hg. unfold coefficient.
  destruct (cols !! i) as [c|]; simpl; [|done].
  unfold coeff, lp_variable.
  rewrite lookup_union_l' by (by rewrite mutex_pairs_lookup, decide_True).
  by rewrite mutex_pairs_lookup, decide_True.
Qed.

Lemma coefficient_unnamed (a : jsstring) (i : nat) (c : Column) :
  cols !! i = Some c → a ∉ mutexes_of cols →
  coefficient cols widths a i
  = default 0%Z
      ((<[num_str i := 1%Z]>
          (<[js "width" := (1 + default 0 (widths !! i))%Z]>
             ({[ js "importance" := importance c ]} : gmap jsstring Z))) !! a).
Proof.
  intros Hi Ha. unfold coefficient. rewrite Hi. simpl.
  unfold coeff, lp_variable.
  by rewrite lookup_union_r by (by rewrite mutex_pairs_lookup, decide_False).
Qed.

Lemma coefficient_importance (i : nat) :
  i < length cols →
  coefficient cols widths (js "importance") i = importance_at cols i.
Proof.
  intros Hi. destruct (lookup_lt_is_Some_2 _ _ Hi) as [c Hc].
  destruct Hnames as (_ & Himp & Hkeys). destruct (Hkeys i Hi) as (Hw & Hk & _).
  rewrite (coefficient_unnamed _ _ _ Hc Himp).
  unfold importance_at. rewrite Hc. simpl.
  rewrite lookup_insert_ne by done.
  rewrite lookup_insert_ne by (by intros ?%js_inj).
  by rewrite lookup_singleton_eq.
Qed.

Lemma coefficient_width (i : nat) :
  i < length cols →
  coefficient cols widths (js "width") i = (1 + width_at widths i)%Z.
Proof.
  intros Hi. destruct (lookup_lt_is_Some_2 _ _ Hi) as [c Hc].
  destruct Hnames as (Hwidth & _ & Hkeys). destruct (Hkeys i Hi) as (Hw & _ & _).
  rewrite (coefficient_unnamed _ _ _ Hc Hwidth).
  rewrite lookup_insert_ne by done.
  by rewrite lookup_insert_eq.
Qed.

Lemma coefficient_index (j i : nat) :
  i < length cols → j < length cols →
  coefficient cols widths (num_str j) i = if decide (i = j) then 1%Z else 0%Z.
Proof.
  intros Hi Hj. destruct (lookup_lt_is_Some_2 _ _ Hi) as [c Hc].
  destruct Hnames as (_ & _ & Hkeys). destruct (Hkeys j Hj) as (Hw & Hk & Hm).
  rewrite (coefficient_unnamed _ _ _ Hc Hm).
  case_decide as Hij.
  - subst j. by rewrite lookup_insert_eq.
  - rewrite lookup_insert_ne by (by intros ?%(inj num_str)).
    rewrite lookup_insert_ne by done.
    by rewrite lookup_singleton_ne by done.
Qed.

End LPModel.

Section LPConstraints.
Context (env : Env) (cols : list Column) (widths : list Z).
Hypothesis Hnames : names_apart cols.

Lemma foldl_insert_lookup_is_Some {A V} (k : A → jsstring) (v : A → V)
    (o : gmap jsstring V) (l : list A) (c : jsstring) :
  is_Some (o !! c) → is_Some (foldl (λ o x, <[k x := v x]> o) o l !! c).
Proof.
  intros Ho. induction l as [|x l IH] using rev_ind; [done|].
  rewrite foldl_insert_snoc.
  destruct (decide (k x = c)) as [<-|Hne].
  - rewrite lookup_insert_eq. eauto.
  - by rewrite lookup_insert_ne.
Qed.

(** Every constraint of the model is the bound 1 on a column, the bound 1 on
    a mutex group, or the bound on the width. *)
Lemma constraints_inv (c : jsstring) (con : Constraint) :
  constraints (lp_model env cols widths) !! c = Some con →
  (∃ i, i < length cols ∧ c = num_str i ∧ cmax con = 1%Z) ∨
  (c ∈ mutexes_of cols ∧ cmax con = 1%Z) ∨
  (c = js "width" ∧ cmax con = (1 + Z.of_nat (terminal_width env))%Z).
Proof.
  simpl. unfold lp_constraints. intros H.
  apply foldl_insert_lookup_inv in H as [(ic & Hic & <- & ->)|H].
  { left. apply elem_of_lookup_imap_1 in Hic as (i & c & -> & Hi).
    exists i. split_and!; [by eapply lookup_lt_Some|done|done]. }
  apply foldl_insert_lookup_inv in H as [(g & Hg & <- & ->)|H].
  { right. left. done. }
  right. right. apply lookup_singleton_Some in H as [<- <-]. done.
Qed.

Lemma constraints_index (i : nat) :
  i < length cols →
  ∃ con, constraints (lp_model env cols widths) !! num_str i = Some con
         ∧ cmax con = 1%Z.
Proof.
  intros Hi. destruct (lookup_lt_is_Some_2 _ _ Hi) as [c Hc].
  simpl. unfold lp_constraints.
  edestruct (foldl_insert_lookup_in
               (λ ic : nat * Column, num_str ic.1)
               (λ ic, {| cmax := 1; cname := Some (constraint_name ic.2) |})) as
    (y & _ & _ & Hy);
    [exact (elem_of_lookup_imap_2 pair cols c i Hc)|].
  simpl in Hy. eexists. split; [exact Hy|done].
Qed.

Lemma constraints_mutex (g : jsstring) :
  g ∈ mutexes_of cols →
  ∃ con, constraints (lp_model env cols widths) !! g = Some con ∧ cmax con = 1%Z.
Proof.
  intros Hg.
  assert (is_Some (constraints (lp_model env cols widths) !! g)) as [con Hcon].
  { simpl. unfold lp_constraints. apply foldl_insert_lookup_is_Some.
    edestruct (foldl_insert_lookup_in (λ m : jsstring, m)
                 (λ _, {| cmax := 1; cname := None |})) as (y & _ & _ & Hy);
      [exact Hg|]. rewrite Hy. eauto. }
  exists con. split; [done|].
  destruct (constraints_inv _ _ Hcon) as [(i & _ & _ & ?)|[[_ ?]|[-> _]]]; [done..|].
  by destruct Hnames as (Hw & _).
Qed.

Lemma constraints_width :
  ∃ con, constraints (lp_model env cols widths) !! js "width" = Some con
         ∧ cmax con = (1 + Z.of_nat (terminal_width env))%Z.
Proof.
  destruct Hnames as (Hwidth & _ & Hkeys).
  simpl. unfold lp_constraints.
  rewrite foldl_insert_lookup_other.
  - rewrite foldl_insert_lookup_other.
    + rewrite lookup_singleton_eq. eauto.
    + intros g Hg ->. done.
  - intros ic (i & c & -> & Hi)%elem_of_lookup_imap_1. simpl.
    apply (Hkeys i). by eapply lookup_lt_Some.
Qed.

(** What an assignment obeys, column by column. *)
Lemma satisfies_zero_one (x : jsstring → Z) (i : nat) :
  satisfies (lp_model env cols widths) x →
  i < length cols →
  x (num_str i) = if decide (x (num_str i) ≠ 0%Z) then 1%Z else 0%Z.
Proof.
  intros [Hpos Hcon] Hi.
  destruct (lookup_lt_is_Some_2 _ _ Hi) as [c Hc].
  assert (0 ≤ x (num_str i))%Z as H0.
  { apply Hpos. rewrite (variables_lookup _ _ _ _ _ Hc). eauto. }
  destruct (constraints_index i Hi) as (con & Hlookup & Hmax).
  specialize (Hcon _ _ Hlookup). rewrite Hmax, lhs_seq in Hcon.
  rewrite (list_fmap_ext _ (λ j, if decide (j = i) then x (num_str i) else 0%Z))
    in Hcon.
  - rewrite sumZ_single in Hcon by done. case_decide; lia.
  - intros _ j Hj%list_elem_of_lookup_2%elem_of_seq.
    rewrite (coefficient_index cols widths Hnames) by lia.
    case_decide; [subst; lia|lia].
Qed.

End LPConstraints.

Section LPSelection.
Context (env : Env) (cols : list Column) (widths : list Z).
Hypothesis Hnames : names_apart cols.

Lemma filter_none {A} (P : A → Prop) `{∀ a, Decision (P a)} (l : list A) :
  (∀ a, a ∈ l → ¬ P a) → filter P l = [].
Proof.
  induction l as [|a l IH]; intros Hl; [done|].
  rewrite filter_cons, decide_False by (apply Hl; by left).
  apply IH. intros b Hb. apply Hl. by right.
Qed.

(** The columns on which an assignment is not zero. *)
Lemma lhs_selected (a : jsstring) (f : nat → Z) (x : jsstring → Z) :
  satisfies (lp_model env cols widths) x →
  (∀ i, i < length cols → coefficient cols widths a i = f i) →
  lhs (lp_model env cols widths) a x
  = total f (filter (λ i, x (num_str i) ≠ 0%Z) (seq 0 (length cols))).
Proof.
  intros Hx Hf. rewrite lhs_seq by done.
  rewrite (list_fmap_ext _ (λ i, f i * x (num_str i))%Z).
  - apply (sumZ_zero_one f (λ i, x (num_str i)) (λ i, x (num_str i) ≠ 0%Z)).
    intros i Hi%elem_of_seq.
    apply (satisfies_zero_one env cols widths Hnames); [done|lia].
  - intros _ i Hi%list_elem_of_lookup_2%elem_of_seq. rewrite Hf; [done|lia].
Qed.

Lemma satisfies_admissible (x : jsstring → Z) :
  satisfies (lp_model env cols widths) x →
  admissible env cols widths
    (filter (λ i, x (num_str i) ≠ 0%Z) (seq 0 (length cols))) ∧
  objective (lp_model env cols widths) x
  = total (importance_at cols)
      (filter (λ i, x (num_str i) ≠ 0%Z) (seq 0 (length cols))).
Proof.
  intros Hx. pose proof Hx as [_ Hcon]. split; [split_and!|].
  - split; [apply NoDup_filter, NoDup_seq|].
    intros i [_ Hi%elem_of_seq]%list_elem_of_filter. lia.
  - destruct (constraints_width env cols widths Hnames) as (con & Hlookup & Hmax).
    specialize (Hcon _ _ Hlookup). rewrite Hmax in Hcon.
    rewrite (lhs_selected _ (λ i, 1 + width_at widths i)%Z) in Hcon;
      [|done|apply (coefficient_width cols widths Hnames)].
    unfold fits. lia.
  - intros g. destruct (decide (g ∈ mutexes_of cols)) as [Hg|Hg].
    + destruct (constraints_mutex env cols widths Hnames g Hg)
        as (con & Hlookup & Hmax).
      specialize (Hcon _ _ Hlookup). rewrite Hmax in Hcon.
      rewrite (lhs_selected _ (λ i, if decide (cols !! i ≫= mutexGroup = Some g)
                                    then 1 else 0)%Z) in Hcon;
        [|done|intros i _; by apply coefficient_mutex].
      unfold total in Hcon.
      rewrite (sumZ_count (λ i, cols !! i ≫= mutexGroup = Some g)) in Hcon. lia.
    + rewrite filter_none; [simpl; lia|].
      intros i _ Hi. apply Hg, mutexes_of_elem_of.
      destruct (cols !! i) as [c|] eqn:Hc; [|done].
      exists c. split; [by eapply list_elem_of_lookup_2|done].
  - unfold objective. simpl.
    apply lhs_selected; [done|apply (coefficient_importance cols widths Hnames)].
Qed.

Lemma indicator_index (sel : list nat) (i : nat) :
  indicator (num_str <$> sel) (num_str i) = if decide (i ∈ sel) then 1%Z else 0%Z.
Proof.
  unfold indicator. destruct (decide (i ∈ sel)) as [Hi|Hi].
  - rewrite bool_decide_eq_true_2; [done|]. by apply list_elem_of_fmap_2.
  - rewrite bool_decide_eq_false_2; [done|]. by intros ?%(list_elem_of_fmap_inj_2 _).
Qed.

Lemma selection_as_filter (sel : list nat) :
  selection cols sel → filter (λ i, i ∈ sel) (seq 0 (length cols)) ≡ₚ sel.
Proof.
  intros [Hnd Hlt]. apply NoDup_Permutation; [apply NoDup_filter, NoDup_seq|done|].
  intros i. rewrite list_elem_of_filter, elem_of_seq. split; [tauto|].
  intros Hi. specialize (Hlt i Hi). split; [done|lia].
Qed.

Lemma lhs_indicator (a : jsstring) (f : nat → Z) (sel : list nat) :
  selection cols sel →
  (∀ i, i < length cols → coefficient cols widths a i = f i) →
  lhs (lp_model env cols widths) a (indicator (num_str <$> sel)) = total f sel.
Proof.
  intros Hsel Hf. rewrite lhs_seq by done.
  rewrite (list_fmap_ext _ (λ i, f i * indicator (num_str <$> sel) (num_str i))%Z).
  - rewrite (sumZ_zero_one f _ (λ i, i ∈ sel)) by (intros; apply indicator_index).
    apply total_Permutation. by apply selection_as_filter.
  - intros _ i Hi%list_elem_of_lookup_2%elem_of_seq. rewrite Hf; [done|lia].
Qed.

Lemma admissible_satisfies (sel : list nat) :
  admissible env cols widths sel →
  satisfies (lp_model env cols widths) (indicator (num_str <$> sel)) ∧
  objective (lp_model env cols widths) (indicator (num_str <$> sel))
  = total (importance_at cols) sel.
Proof.
  intros (Hsel & Hfits & Hgroup). split; [split|].
  - intros v _. unfold indicator. case_bool_decide; lia.
  - intros c con Hcon.
    destruct (constraints_inv _ _ _ _ _ Hcon)
      as [(i & Hi & -> & ->)|[[Hg ->]|[-> ->]]].
    + rewrite lhs_seq by done.
      rewrite (list_fmap_ext _
                 (λ j, if decide (j = i)
                       then indicator (num_str <$> sel) (num_str i) else 0%Z)).
      * rewrite sumZ_single by done. unfold indicator. case_bool_decide; lia.
      * intros _ j Hj%list_elem_of_lookup_2%elem_of_seq.
        rewrite (coefficient_index cols widths Hnames) by lia.
        case_decide; [subst; lia|lia].
    + rewrite (lhs_indicator _ (λ i, if decide (cols !! i ≫= mutexGroup = Some c)
                                     then 1 else 0)%Z);
        [|done|intros i _; by apply coefficient_mutex].
      unfold total.
      rewrite (sumZ_count (λ i, cols !! i ≫= mutexGroup = Some c)).
      specialize (Hgroup c). lia.
    + rewrite (lhs_indicator _ (λ i, 1 + width_at widths i)%Z);
        [|done|apply (coefficient_width cols widths Hnames)].
      unfold fits in Hfits. lia.
  - unfold objective. simpl.
    apply lhs_indicator; [done|apply (coefficient_importance cols widths Hnames)].
Qed.

End LPSelection.

(** ** The selection of [pickColumns] *)

(** The number of a variable that is 0 or 1 is truthy exactly when it is 1. *)
Lemma truthy_reads (m : Model) (r : SolveResult) (x : jsstring → Z) (v : jsstring) :
  reads m r x →
  is_Some (variables m !! v) →
  x v = (if decide (x v ≠ 0%Z) then 1%Z else 0%Z) →
  truthy (values r !! v) = true ↔ x v ≠ 0%Z.
Proof.
  intros Hr Hv H01. specialize (Hr v Hv).
  destruct (decide (x v ≠ 0%Z)) as [Hne|Heq].
  - destruct (values r !! v) as [a|]; [|done].
    rewrite H01 in Hr. by subst a.
  - assert (x v = 0%Z) as H0 by lia.
    destruct (values r !! v) as [a|]; [|done].
    rewrite H0 in Hr. by subst a.
Qed.

Lemma filter_iff_in {A} (P Q : A → Prop) `{∀ a, Decision (P a)}
    `{∀ a, Decision (Q a)} (l : list A) :
  (∀ a, a ∈ l → P a ↔ Q a) → filter P l = filter Q l.
Proof.
  induction l as [|a l IH]; intros HPQ; [done|].
  rewrite !filter_cons, IH by (intros b Hb; apply HPQ; by right).
  destruct (HPQ a ltac:(by left)). repeat case_decide; tauto.
Qed.

Lemma all_integer_lp_model (env : Env) (cols : list Column) (widths : list Z) :
  all_integer (lp_model env cols widths).
Proof.
  intros v Hv.
  assert (ints (lp_model env cols widths) = num_str <$> seq 0 (length cols)) as ->
    by (simpl; apply imap_seq_0).
  destruct (decide (v ∈ num_str <$> seq 0 (length cols))) as [|Hn]; [done|].
  rewrite <- (variable_names cols widths) in Hn.
  apply fromPairs_lookup_None in Hn. simpl in Hv. rewrite Hn in Hv.
  by destruct Hv.
Qed.

(** The selection read off a result that spells out an assignment. *)
Lemma pickColumns_feasible (env : Env) (program : Program)
    (cols : list Column) (widths : list Z) (x : jsstring → Z) :
  names_apart cols →
  feasible (Solve env (lp_model env cols widths)) = true →
  reads (lp_model env cols widths) (Solve env (lp_model env cols widths)) x →
  satisfies (lp_model env cols widths) x →
  (pickColumns env program cols widths).2
  = filter (λ i, x (num_str i) ≠ 0%Z) (seq 0 (length cols)).
Proof.
  intros Hnames Hf Hr Hsat. unfold pickColumns. simpl. rewrite Hf.
  rewrite (selected_as_filter
             (λ i, truthy (values (Solve env (lp_model env cols widths))
                           !! num_str i))).
  apply filter_iff_in. intros i Hi%elem_of_seq.
  destruct (lookup_lt_is_Some_2 cols i ltac:(lia)) as [c Hc].
  apply (truthy_reads _ _ _ _ Hr).
  - rewrite (variables_lookup env cols widths i c Hc). eauto.
  - apply (satisfies_zero_one env cols widths Hnames); [done|lia].
Qed.

Lemma optimal_when_names_apart (env : Env) (program : Program)
    (cols : list Column) (widths : list Z) :
  names_apart cols →
  solves (Solve env) (lp_model env cols widths) →
  feasible (Solve env (lp_model env cols widths)) = true →
  admissible env cols widths (pickColumns env program cols widths).2 ∧
  ∀ sel, admissible env cols widths sel →
    (total (importance_at cols) sel
     ≤ total (importance_at cols) (pickColumns env program cols widths).2)%Z.
Proof.
  intros Hnames Hsolves Hf.
  destruct (Hsolves (all_integer_lp_model env cols widths) Hf)
    as (x & Hr & Hsat & Hbest).
  rewrite (pickColumns_feasible _ _ _ _ x Hnames Hf Hr Hsat).
  destruct (satisfies_admissible env cols widths Hnames _ Hsat) as [Hadm Hobj].
  split; [done|]. intros sel Hsel.
  destruct (admissible_satisfies env cols widths Hnames _ Hsel) as [Hsat' Hobj'].
  specialize (Hbest _ Hsat').
  change (opType (lp_model env cols widths)) with OpMax in Hbest. cbv iota in Hbest.
  by rewrite <- Hobj, <- Hobj'.
Qed.

(** The names of the catalog are apart. *)
Lemma catalog_mutexes (env : Env) (program : Program) (cols : list Column) :
  catalog env program cols → mutexes_of cols = [js "types"; js "desc"].
Proof.
  intros Hc. unfold mutexes_of. by rewrite (catalog_mutexGroups _ _ _ Hc).
Qed.

Ltac names_differ :=
  let H := fresh in
  intros H;
  repeat (apply elem_of_cons in H as [H|H]; [vm_compute in H; discriminate H|]);
  first [by apply elem_of_nil in H | vm_compute in H; discriminate H].

Lemma catalog_names_apart (env : Env) (program : Program) (cols : list Column) :
  catalog env program cols → names_apart cols.
Proof.
  intros Hc. unfold names_apart.
  rewrite (catalog_mutexes _ _ _ Hc), (catalog_length _ _ _ Hc).
  split_and!; [names_differ|names_differ|].
  intros i Hi.
  do 14 (destruct i as [|i]; [split_and!; names_differ|]). lia.
Qed.

(** ** The reference solver *)

Lemma sublists_elem_of {A} (l' l : list A) :
  l' `sublist_of` l → l' ∈ sublists l.
Proof.
  induction 1 as [|x l1 l2 _ IH|x l1 l2 _ IH]; simpl.
  - by left.
  - apply elem_of_app. left. by apply list_elem_of_fmap_2.
  - apply elem_of_app. by right.
Qed.

Lemma lhs_ext (m : Model) (a : jsstring) (x y : jsstring → Z) :
  (∀ v, x v = y v) → lhs m a x = lhs m a y.
Proof.
  intros Hxy. unfold lhs. f_equal. apply list_fmap_ext. intros _ va _.
  simpl. by rewrite Hxy.
Qed.

Lemma satisfies_ext (m : Model) (x y : jsstring → Z) :
  (∀ v, x v = y v) → satisfies m x → satisfies m y.
Proof.
  intros Hxy [Hpos Hcon]. split.
  - intros v Hv. rewrite <- Hxy. by apply Hpos.
  - intros c con Hc. rewrite <- (lhs_ext m c x y Hxy). by apply Hcon.
Qed.

Lemma reads_indicator (m : Model) (f : bool) (s : list jsstring) :
  reads m {| feasible := f; values := fromPairs ((λ v, (v, 1%float)) <$> s) |}
        (indicator s).
Proof.
  intros v _. unfold indicator. simpl.
  rewrite (fromPairs_lookup_fn (λ _, 1%float)).
  case_decide; [by rewrite bool_decide_eq_true_2|by rewrite bool_decide_eq_false_2].
Qed.

Lemma satisfiesb_spec (m : Model) (s : list jsstring) :
  satisfiesb m s = true ↔ satisfies m (indicator s).
Proof.
  unfold satisfiesb. rewrite forallb_forall. split.
  - intros H. split.
    + intros v _. unfold indicator. case_bool_decide; lia.
    + intros c con Hc. apply Z.leb_le.
      apply (H (c, con)), list_elem_of_In, elem_of_map_to_list, Hc.
  - intros [_ H] [c con] Hin%list_elem_of_In%elem_of_map_to_list.
    apply Z.leb_le. simpl. by apply H.
Qed.

Lemma better_best (m : Model) (s : list jsstring) (ss : list (list jsstring)) :
  foldr (better m) s ss ∈ s :: ss ∧
  ∀ t, t ∈ s :: ss →
    (objective m (indicator t)
     ≤ objective m (indicator (foldr (better m) s ss)))%Z.
Proof.
  induction ss as [|u ss [IHin IHle]]; simpl.
  { split; [by left|]. intros t ->%list_elem_of_singleton. lia. }
  unfold better at 1 3.
  destruct (objective m (indicator (foldr (better m) s ss))
            <? objective m (indicator u))%Z eqn:Hlt.
  - apply Z.ltb_lt in Hlt. split; [right; by left|].
    intros t Ht. apply elem_of_cons in Ht as [->|Ht%elem_of_cons].
    + specialize (IHle s ltac:(by left)). lia.
    + destruct Ht as [->|Ht]; [lia|].
      specialize (IHle t ltac:(by right)). lia.
  - apply Z.ltb_ge in Hlt. split.
    + apply elem_of_cons in IHin as [->|?]; [by left|]. right. by right.
    + intros t Ht. apply elem_of_cons in Ht as [->|Ht%elem_of_cons].
      * apply IHle. by left.
      * destruct Ht as [->|Ht]; [lia|]. apply IHle. by right.
Qed.

Lemma ints_of_model (env : Env) (cols : list Column) (widths : list Z) :
  ints (lp_model env cols widths) = num_str <$> seq 0 (length cols).
Proof. simpl. apply imap_seq_0. Qed.

(** A selection is among the candidates of the exhaustive search. *)
Lemma candidate_of_selection (env : Env) (cols : list Column) (widths : list Z)
    (P : nat → Prop) `{∀ i, Decision (P i)} :
  names_apart cols →
  admissible env cols widths (filter P (seq 0 (length cols))) →
  In (num_str <$> filter P (seq 0 (length cols)))
     (List.filter (satisfiesb (lp_model env cols widths))
                  (sublists (ints (lp_model env cols widths)))).
Proof.
  intros Hnames Hadm. apply filter_In. split.
  - apply list_elem_of_In, sublists_elem_of. rewrite ints_of_model.
    apply fmap_sublist, sublist_filter.
  - apply satisfiesb_spec. by apply admissible_satisfies.
Qed.

Lemma filter_False_seq (n : nat) : filter (λ _ : nat, False) (seq 0 n) = [].
Proof. apply filter_none. tauto. Qed.

Lemma admissible_nil (env : Env) (cols : list Column) (widths : list Z) :
  admissible env cols widths [].
Proof.
  split_and!.
  - split; [constructor|]. by intros i ?%elem_of_nil.
  - unfold fits, total. simpl. lia.
  - intros g. simpl. lia.
Qed.

Lemma exhaustive_feasible (env : Env) (cols : list Column) (widths : list Z) :
  names_apart cols →
  feasible (exhaustive_Solve (lp_model env cols widths)) = true.
Proof.
  intros Hnames. unfold exhaustive_Solve.
  pose proof (candidate_of_selection env cols widths (λ _, False) Hnames) as Hin.
  rewrite filter_False_seq in Hin. specialize (Hin (admissible_nil _ _ _)).
  by destruct (List.filter _ _).
Qed.

(** On the model of [pickColumns] the exhaustive search keeps the solver's
    contract. *)
Lemma exhaustive_solves (env : Env) (cols : list Column) (widths : list Z) :
  names_apart cols →
  solves exhaustive_Solve (lp_model env cols widths).
Proof.
  intros Hnames _ _. unfold exhaustive_Solve.
  destruct (List.filter _ _) as [|s ss] eqn:Hfilter.
  { pose proof (candidate_of_selection env cols widths (λ _, False) Hnames) as Hin.
    rewrite filter_False_seq, Hfilter in Hin.
    destruct (Hin (admissible_nil _ _ _)). }
  destruct (better_best (lp_model env cols widths) s ss) as [Hbest Hle].
  assert (satisfies (lp_model env cols widths)
            (indicator (foldr (better (lp_model env cols widths)) s ss))) as Hsat.
  { apply satisfiesb_spec. apply list_elem_of_In in Hbest.
    rewrite <- Hfilter in Hbest. by apply filter_In in Hbest as [_ ?]. }
  exists (indicator (foldr (better (lp_model env cols widths)) s ss)).
  split; [apply reads_indicator|]. split; [done|].
  intros x Hx.
  destruct (satisfies_admissible env cols widths Hnames x Hx) as [Hadm Hobj].
  destruct (admissible_satisfies env cols widths Hnames _ Hadm) as [_ Hobj'].
  pose proof (candidate_of_selection env cols widths _ Hnames Hadm) as Hin.
  rewrite Hfilter in Hin. apply list_elem_of_In, Hle in Hin.
  change (opType (lp_model env cols widths)) with OpMax. cbv iota. lia.
Qed.

(** ** The optimal selection *)




(** * Further properties *)

(** ** Adjusting the importance of a header *)

Lemma existsb_header (h : jsstring) (cols : list Column) :
  existsb (λ col, bool_decide (header col = h)) cols = true ↔ h ∈ header <$> cols.
Proof.
  rewrite existsb_exists, list_elem_of_fmap. split.
  - intros (c & Hin%list_elem_of_In & Hc%bool_decide_eq_true). eauto.
  - intros (c & -> & Hin). exists c.
    split; [by apply list_elem_of_In|by apply bool_decide_eq_true].
Qed.

Lemma adjustImportance_known (h : jsstring) (z : Z) (cols : list Column) :
  h ∈ header <$> cols →
  adjustImportance h z cols
  = inr ((λ col, if decide (header col = h) then set_importance z col else col)
         <$> cols).
Proof.
  intros Hh%existsb_header. unfold adjustImportance. by rewrite Hh.
Qed.

Lemma adjustImportance_unknown (h : jsstring) (z : Z) (cols : list Column) :
  h ∉ header <$> cols →
  adjustImportance h z cols = inl (unknown_header_message h).
Proof.
  intros Hh. unfold adjustImportance.
  destruct (existsb _ cols) eqn:He; [|done]. by apply existsb_header in He.
Qed.

Lemma adjusted_headers (h : jsstring) (z : Z) (cols : list Column) :
  header <$> ((λ col, if decide (header col = h) then set_importance z col else col)
              <$> cols)
  = header <$> cols.
Proof.
  rewrite <- list_fmap_compose. apply list_fmap_ext.
  intros _ c _. simpl. by case_decide.
Qed.

Lemma set_importance_same (c : Column) : set_importance (importance c) c = c.
Proof. by destruct c. Qed.

(** X1. [adjustImportance] throws exactly when no column has the header, and
    then names the header in the message.  Otherwise it returns a catalog of
    the same headers in the same order in which every column of that header
    (there may be several) has the new importance and every other column is
    as it was; no field but the importance changes. *)
Theorem adjustImportance_known_or_error (h : jsstring) (z : Z) (cols : list Column) :
  ((h ∉ header <$> cols) ∧
   adjustImportance h z cols = inl (js "Unable to find column with header " ++ h)) ∨
  (h ∈ header <$> cols ∧
   ∃ cols', adjustImportance h z cols = inr cols' ∧
            header <$> cols' = header <$> cols ∧
            Forall2 (λ c c', c' = set_importance
                                    (if decide (header c = h) then z else importance c)
                                    c)
                    cols cols').
Proof.
  destruct (decide (h ∈ header <$> cols)) as [Hh|Hh].
  - right. split; [done|]. eexists. split; [by apply adjustImportance_known|].
    split; [apply adjusted_headers|].
    apply Forall2_fmap_r, Forall_Forall2_diag, Forall_forall.
    intros c _. simpl. destruct (decide (header c = h)); [done|].
    by rewrite set_importance_same.
  - left. split; [done|]. by apply adjustImportance_unknown.
Qed.

(** X2. For headers of the catalog at hand, a second adjustment of the same
    header overrides the first, and adjustments of two different headers
    give the same catalog in either order. *)
Theorem adjustImportance_composes (h h' : jsstring) (z z' : Z) (cols : list Column) :
  h ∈ header <$> cols →
  h' ∈ header <$> cols →
  h ≠ h' →
  andThen (adjustImportance h z cols) (adjustImportance h z')
  = adjustImportance h z' cols ∧
  andThen (adjustImportance h z cols) (adjustImportance h' z')
  = andThen (adjustImportance h' z' cols) (adjustImportance h z).
Proof.
  intros Hh Hh' Hne. split.
  - rewrite (adjustImportance_known h z) by done. simpl.
    rewrite !adjustImportance_known by (by rewrite ?adjusted_headers).
    f_equal. rewrite <- list_fmap_compose. apply list_fmap_ext.
    intros _ c _. simpl. by repeat (case_decide; simpl in *).
  - rewrite (adjustImportance_known h z), (adjustImportance_known h' z') by done.
    simpl. rewrite !adjustImportance_known by (by rewrite ?adjusted_headers).
    f_equal. rewrite <- !list_fmap_compose. apply list_fmap_ext.
    intros _ c _. simpl.
    repeat (case_decide; simpl in *); try done; congruence.
Qed.

Lemma adjustImportance_composes_witness :
  js "yarn" ∈ header <$> columns env_fallback program_react ∧
  js "types" ∈ header <$> columns env_fallback program_react ∧
  js "yarn" ≠ js "types" ∧
  andThen (adjustImportance (js "yarn") 1000 (columns env_fallback program_react))
          (adjustImportance (js "yarn") 7)
  = adjustImportance (js "yarn") 7 (columns env_fallback program_react).
Proof.
  assert (js "yarn" ∈ header <$> columns env_fallback program_react) as H1
    by (simpl; in_list).
  assert (js "types" ∈ header <$> columns env_fallback program_react) as H2
    by (simpl; in_list).
  assert (js "yarn" ≠ js "types") as H3 by (by intros ?%js_inj).
  split_and!; [done..|].
  apply (adjustImportance_composes (js "yarn") (js "types") 1000 7
           (columns env_fallback program_react) H1 H2 H3).
Defined.

(** ** The flags *)

(** X3. [applyFlags] on the catalog throws only for conflicting filter
    options, never for a header it adjusts: with more than one of
    [--untyped], [--dt] and [--bundled] the conflict is reported, and with
    at most one the call returns the filter of that option, or the default
    filter when none is given, together with a catalog that differs from the
    original in importances only. *)
Theorem applyFlags_one_filter (env : Env) (program : Program) :
  match untyped program, dt program, bundled program with
  | true, false, false =>
      ∃ cols, catalog env program cols ∧
        applyFlags program (columns env program) = inr (cols, NOT_TYPES)
  | false, true, false =>
      ∃ cols, catalog env program cols ∧
        applyFlags program (columns env program) = inr (cols, IS_DT)
  | false, false, true =>
      ∃ cols, catalog env program cols ∧
        applyFlags program (columns env program)
        = inr (cols, IS_INCLUDED ++ js " AND " ++ NOT_TYPES)
  | false, false, false =>
      ∃ cols, catalog env program cols ∧
        applyFlags program (columns env program)
        = inr (cols, js "(" ++ IS_DT ++ js " OR " ++ IS_INCLUDED ++ js ") AND "
                     ++ NOT_TYPES)
  | _, _, _ =>
      applyFlags program (columns env program)
      = inl (js "May only specify one of untyped,dt,bundled")
  end.
Proof.
  destruct (applyFlags_catalog env program) as (cols & Hc & ->).
  destruct (untyped program), (dt program), (bundled program); simpl; eauto.
Qed.

(** The importances [applyFlags] leaves. *)
Lemma applyFlags_importance_vector (env : Env) (program : Program)
    (cols : list Column) (filters : jsstring) :
  applyFlags program (columns env program) = inr (cols, filters) →
  importance <$> cols
  = [3; 2; 100;
     if yarn program || npm program then 25 else 100;
     if yarn program || npm program then 25 else 80;
     if npm program then 1000 else -1;
     if yarn program then 1000 else -1;
     25; 30; 35; 1; 5;
     if repo program then -1 else 10;
     if repo program then 1000 else -1]%Z.
Proof.
  unfold applyFlags.
  destruct (yarn program), (npm program), (repo program); simpl;
    (case_decide; [discriminate|]); intros [= <- _]; reflexivity.
Qed.

(** X4. The catalog [applyFlags] returns has the importances of the original
    but for these: [--npm] and [--yarn] raise their install column to 1000
    and either of them sets both [types] columns to 25; [--repo] raises the
    [repo] column to 1000 and lowers the [homepage] column to -1. *)
Theorem applyFlags_importances (env : Env) (program : Program)
    (cols : list Column) (filters : jsstring) :
  applyFlags program (columns env program) = inr (cols, filters) →
  importance <$> cols
  = [3; 2; 100;
     if yarn program || npm program then 25 else 100;
     if yarn program || npm program then 25 else 80;
     if npm program then 1000 else -1;
     if yarn program then 1000 else -1;
     25; 30; 35; 1; 5;
     if repo program then -1 else 10;
     if repo program then 1000 else -1]%Z.
Proof. apply applyFlags_importance_vector. Qed.

Lemma applyFlags_importances_witness :
  ∃ cols,
    applyFlags program_yarn_repo (columns env_fallback program_yarn_repo)
    = inr (cols, IS_DT) ∧
    importance <$> cols = [3; 2; 100; 25; 25; -1; 1000; 25; 30; 35; 1; 5; -1; 1000]%Z.
Proof.
  eexists. split; [reflexivity|].
  apply (applyFlags_importances env_fallback program_yarn_repo _ IS_DT). reflexivity.
Defined.

(** ** Install commands *)

(** X5. The install command of a hit is empty exactly when the hit has no
    types; otherwise it starts with the given command and a space, and a hit
    typed by DefinitelyTyped gets a second command for its types package. *)
Theorem makeInstallCommand_empty_iff_untyped (program : Program)
    (cmd : jsstring) (h : Hit) :
  (makeInstallCommand program cmd h = [] ↔ types h = TsNone) ∧
  (types h ≠ TsNone →
   (cmd ++ js " ") `prefix_of` makeInstallCommand program cmd h) ∧
  (∀ pkg, types h = TsDefinitelyTyped pkg →
   (js " && " ++ cmd ++ js " -D" ++ (if exact program then js "E" else [])
    ++ js " " ++ pkg)
   `suffix_of` makeInstallCommand program cmd h).
Proof.
  unfold makeInstallCommand. split_and!.
  - destruct (types h); split; try done;
      intros H%(f_equal length); rewrite !length_app in H; simpl in H; lia.
  - intros Hty. destruct (types h); [| |done];
      eexists; rewrite <- !app_assoc; reflexivity.
  - intros pkg ->. eexists. reflexivity.
Qed.

(** ** Formatted columns *)

Lemma column_width_le (vals : list jsstring) (spec : Column) :
  column_width vals spec ≤ max_list (length <$> vals).
Proof. unfold column_width. lia. Qed.

Lemma formatCell_whole (width : nat) (a : option Align) (v : jsstring) :
  length v ≤ width →
  formatCell width a v
  = match a with
    | Some AlignRight => replicate (width - length v) space ++ v
    | Some AlignLeft | None => v ++ replicate (width - length v) space
    end.
Proof.
  intros Hv. unfold formatCell, padStart, padEnd, slice0.
  rewrite take_ge by lia. by destruct a as [[]|].
Qed.

Lemma formatCell_cut (width : nat) (a : option Align) (v : jsstring) :
  width ≤ length v → formatCell width a v = take width v.
Proof.
  intros Hv. unfold formatCell, padStart, padEnd, slice0.
  rewrite length_take. replace (width - width `min` length v) with 0 by lia.
  destruct a as [[]|]; simpl; by rewrite ?app_nil_r.
Qed.

Lemma value_within_column (vals : list jsstring) (spec : Column) (v : jsstring) :
  v ∈ vals →
  match maxWidth spec with
  | Some (S n) => length v ≤ S n
  | Some O | None => True
  end →
  length v ≤ column_width vals spec.
Proof.
  intros Hv Hcap.
  assert (length v ≤ max_list (length <$> vals))
    by (by apply max_list_elem_of_le, list_elem_of_fmap_2).
  unfold column_width. destruct (maxWidth spec) as [[|n]|]; lia.
Qed.

(** X6. [formatColumn] returns one cell per value, all of the same length:
    the greatest length among the values, or the column's [maxWidth] when
    that is smaller (a [maxWidth] of 0 counts as none); no values, no cells. *)
Theorem formatColumn_cells_same_length (vals : list jsstring) (spec : Column) :
  length (formatColumn vals spec) = length vals ∧
  Forall (λ cell, length cell = column_width vals spec) (formatColumn vals spec) ∧
  column_width vals spec
  = match maxWidth spec with
    | Some (S n) => max_list (length <$> vals) `min` S n
    | Some O | None => max_list (length <$> vals)
    end.
Proof.
  split_and!.
  - apply length_fmap.
  - apply Forall_fmap, Forall_forall. intros v _. apply length_formatCell.
  - unfold column_width. destruct (maxWidth spec) as [[|n]|]; lia.
Qed.

(** X7. A value of a column is cut only by the column's [maxWidth]: a value
    no longer than [maxWidth], and every value of a column without one, is in
    its cell in full, padded on the side the alignment says; a value longer
    than [maxWidth] is cut to its first [maxWidth] code units and gets no
    padding. *)
Theorem formatColumn_cuts_only_at_maxWidth (vals : list jsstring) (spec : Column)
    (v : jsstring) :
  v ∈ vals →
  let w := column_width vals spec in
  (match maxWidth spec with
   | Some (S n) => length v ≤ S n
   | Some O | None => True
   end →
   formatCell w (align spec) v
   = match align spec with
     | Some AlignRight => replicate (w - length v) space ++ v
     | Some AlignLeft | None => v ++ replicate (w - length v) space
     end) ∧
  (∀ n, maxWidth spec = Some (S n) → S n < length v →
        formatCell w (align spec) v = take (S n) v).
Proof.
  intros Hv w. split.
  - intros Hcap. apply formatCell_whole. by apply value_within_column.
  - intros n Hn Hlen.
    assert (length v ≤ max_list (length <$> vals))
      by (by apply max_list_elem_of_le, list_elem_of_fmap_2).
    assert (w = S n) as -> by (unfold w, column_width; rewrite Hn; lia).
    apply formatCell_cut. lia.
Qed.

Lemma formatColumn_cuts_only_at_maxWidth_witness :
  js "ab" ∈ [js "NAME"; js "ab"] ∧
  formatCell 4 None (js "ab") = js "ab  ".
Proof.
  split; [in_list|].
  destruct (formatColumn_cuts_only_at_maxWidth [js "NAME"; js "ab"]
              {| header := js "name"; align := None; maxWidth := None;
                 format := objectID; highlight := None; importance := 100;
                 mutexGroup := None |} (js "ab")) as [H _]; [in_list|].
  exact (H I).
Defined.

(** X8. No header of the catalog is ever cut: whatever the hits are, the
    header cell of every column is its whole upper-case header, padded to
    the width of the column. *)
Theorem header_cell_is_whole (env : Env) (program : Program) (cols : list Column)
    (hits : list Hit) (i : nat) (spec : Column) :
  catalog env program cols →
  cols !! i = Some spec →
  let w := column_width (toUpperCase (header spec) :: (format spec <$> hits)) spec in
  picked_column cols (formatted_columns cols (formatResult cols <$> hits)) hits i !! 0
  = Some match align spec with
         | Some AlignRight =>
             replicate (w - length (header spec)) space ++ toUpperCase (header spec)
         | Some AlignLeft | None =>
             toUpperCase (header spec) ++ replicate (w - length (header spec)) space
         end.
Proof.
  intros Hc Hi w. rewrite (picked_header_of_hits _ _ _ _ Hi). f_equal.
  fold w. rewrite <- (length_toUpperCase (header spec)).
  apply formatCell_whole, value_within_column; [by left|].
  assert (Forall (λ c, match maxWidth c with
                       | Some (S n) => length (toUpperCase (header c)) ≤ S n
                       | Some O | None => True
                       end) cols) as H.
  { apply (catalog_Forall _ env program); [done| |done].
    repeat constructor; simpl; lia. }
  rewrite Forall_lookup in H. by apply (H i).
Qed.

Lemma header_cell_is_whole_witness :
  catalog env_fallback program_react (columns env_fallback program_react) ∧
  picked_column (columns env_fallback program_react)
    (formatted_columns (columns env_fallback program_react)
       (formatResult (columns env_fallback program_react) <$> [hit_react]))
    [hit_react] 0 !! 0
  = Some (js "  DLS").
Proof.
  split; [apply catalog_initial|].
  rewrite (header_cell_is_whole env_fallback program_react
             (columns env_fallback program_react) [hit_react] 0 _
             (catalog_initial _ _) eq_refl).
  reflexivity.
Defined.

(** ** What every selection and every model has *)

(** X9. Whatever the solver answers, feasible or not, right or wrong,
    [pickColumns] returns indices of the catalog in strictly increasing
    order: the picked columns keep the order of the catalog and none is
    picked twice. *)
Theorem pickColumns_in_catalog_order (env : Env) (program : Program)
    (cols : list Column) (widths : list Z) :
  StronglySorted lt (pickColumns env program cols widths).2 ∧
  NoDup (pickColumns env program cols widths).2 ∧
  ∀ i, i ∈ (pickColumns env program cols widths).2 → i < length cols.
Proof.
  assert (StronglySorted lt (pickColumns env program cols widths).2 ∧
          ∀ i, i ∈ (pickColumns env program cols widths).2 → i < length cols)
    as [Hs Hlt].
  { unfold pickColumns. simpl.
    destruct (feasible (Solve env (lp_model env cols widths))).
    - destruct (selected_indices
                  (λ i (_ : Column),
                     truthy (values (Solve env (lp_model env cols widths))
                             !! num_str i)) cols) as [Hm Hs].
      split; [done|]. intros i (c & Hc & _)%Hm. by eapply lookup_lt_Some.
    - destruct (selected_indices (λ _ c, (25 <=? importance c)%Z) cols) as [Hm Hs].
      split; [done|]. intros i (c & Hc & _)%Hm. by eapply lookup_lt_Some. }
  split_and!; [done|by apply StronglySorted_lt_NoDup|done].
Qed.

Lemma lhs_zero (m : Model) (a : jsstring) : lhs m a (λ _, 0%Z) = 0%Z.
Proof.
  unfold lhs. induction (map_to_list (variables m)) as [|va l IH]; [done|].
  rewrite fmap_cons, sumZ_cons, IH. lia.
Qed.

(** X10. The model [pickColumns] builds always has a solution: selecting no
    column satisfies every constraint and has objective 0, for every catalog,
    all widths and every terminal.  So the fallback is taken only when the
    solver reports a satisfiable model infeasible. *)
Theorem lp_model_satisfiable (env : Env) (cols : list Column) (widths : list Z) :
  satisfies (lp_model env cols widths) (λ _, 0%Z) ∧
  objective (lp_model env cols widths) (λ _, 0%Z) = 0%Z.
Proof.
  split; [|apply lhs_zero].
  split; [done|]. intros c con Hc. rewrite lhs_zero.
  destruct (constraints_inv env cols widths c con Hc)
    as [(_ & _ & _ & ->)|[[_ ->]|[_ ->]]]; lia.
Qed.

(** ** The fallback on the catalog *)

Lemma lookup_importance (cols : list Column) (i : nat) (z : Z) :
  (importance <$> cols) !! i = Some z →
  ∃ c, cols !! i = Some c ∧ importance c = z.
Proof.
  rewrite list_lookup_fmap. destruct (cols !! i) as [c|]; [|done].
  intros [= <-]. eauto.
Qed.

Lemma filter_has_two {A} (P : A → Prop) `{∀ a, Decision (P a)} (l : list A) (a b : A) :
  a ≠ b → a ∈ l → b ∈ l → P a → P b → 2 ≤ length (filter P l).
Proof.
  intros Hab Ha Hb HPa HPb.
  assert ([a; b] ⊆+ filter P l) as Hsub.
  { apply NoDup_submseteq.
    - constructor; [by intros ->%list_elem_of_singleton|].
      constructor; [by intros ?%elem_of_nil|constructor].
    - intros x [->|[->|?%elem_of_nil]%elem_of_cons]%elem_of_cons;
        [| |done]; by apply list_elem_of_filter. }
  by apply submseteq_length in Hsub.
Qed.

(** X11. When the fallback is taken on a catalog [applyFlags] returned, the
    [name] column, both [types] columns and all three [description] columns
    are selected, whatever the flags are: the selection has two columns of
    the [types] group (and three of [desc]), so it is not one column per
    mutex group. *)
Theorem fallback_selects_every_variant (env : Env) (program : Program)
    (cols : list Column) (filters : jsstring) (widths : list Z) :
  applyFlags program (columns env program) = inr (cols, filters) →
  feasible (Solve env (lp_model env cols widths)) = false →
  (∀ i, i ∈ [2; 3; 4; 7; 8; 9] → i ∈ (pickColumns env program cols widths).2) ∧
  ¬ one_per_group cols (pickColumns env program cols widths).2.
Proof.
  intros Hflags Hf.
  pose proof (applyFlags_returns_catalog _ _ _ _ Hflags) as Hc.
  pose proof (applyFlags_importance_vector _ _ _ _ Hflags) as Himp.
  rewrite (pickColumns_infeasible _ _ _ _ Hf).
  destruct (selected_indices (λ _ c, (25 <=? importance c)%Z) cols) as [Hm _].
  simpl in Hm.
  assert (∀ i, i ∈ [2; 3; 4; 7; 8; 9] →
            i ∈ filter_nonNullish
                  (imap (λ i c, if (25 <=? importance c)%Z then Some i else None)
                        cols)) as Hin.
  { intros i Hi. apply Hm.
    assert (∃ z, (importance <$> cols) !! i = Some z ∧ (25 ≤ z)%Z) as (z & Hz & Hle).
    { rewrite Himp.
      repeat (apply elem_of_cons in Hi as [->|Hi];
              [eexists; split; [reflexivity|];
               destruct (yarn program), (npm program); simpl; lia|]).
      by apply elem_of_nil in Hi. }
    apply lookup_importance in Hz as (c & Hc' & <-).
    exists c. split; [done|]. by apply Z.leb_le. }
  split; [done|]. intros Hone. specialize (Hone (js "types")).
  pose proof (catalog_mutexGroups _ _ _ Hc) as Hgroups.
  assert (∀ i, i ∈ [3; 4] → cols !! i ≫= mutexGroup = Some (js "types")) as Hg.
  { intros i Hi.
    assert ((mutexGroup <$> cols) !! i = Some (Some (js "types"))) as Hl.
    { rewrite Hgroups.
      repeat (apply elem_of_cons in Hi as [->|Hi]; [reflexivity|]).
      by apply elem_of_nil in Hi. }
    rewrite list_lookup_fmap in Hl.
    destruct (cols !! i) as [c|]; simpl in *; [by injection Hl|done]. }
  assert (3 ∈ [3; 4]) as H3 by in_list. assert (4 ∈ [3; 4]) as H4 by in_list.
  assert (3 ∈ [2; 3; 4; 7; 8; 9]) as H3' by in_list.
  assert (4 ∈ [2; 3; 4; 7; 8; 9]) as H4' by in_list.
  pose proof (filter_has_two
                (λ i, cols !! i ≫= mutexGroup = Some (js "types")) _ 3 4
                ltac:(lia) (Hin 3 H3') (Hin 4 H4') (Hg 3 H3) (Hg 4 H4)) as H2.
  lia.
Qed.

Lemma fallback_selects_every_variant_witness :
  applyFlags program_react (columns env_fallback program_react)
  = inr (columns env_fallback program_react, FILTERS_default) ∧
  ¬ one_per_group (columns env_fallback program_react)
      (pickColumns env_fallback program_react (columns env_fallback program_react)
         (replicate 14 10%Z)).2.
Proof.
  split; [reflexivity|].
  apply (fallback_selects_every_variant env_fallback program_react
           (columns env_fallback program_react) FILTERS_default
           (replicate 14 10%Z)); reflexivity.
Defined.

(** ** What an optimal selection leaves out *)

Lemma filter_all {A} (P : A → Prop) `{∀ a, Decision (P a)} (l : list A) :
  (∀ a, a ∈ l → P a) → filter P l = l.
Proof.
  induction l as [|a l IH]; intros Hl; [done|].
  rewrite filter_cons, decide_True by (apply Hl; by left).
  f_equal. apply IH. intros b Hb. apply Hl. by right.
Qed.

Lemma total_cons (f : nat → Z) (i : nat) (sel : list nat) :
  total f (i :: sel) = (f i + total f sel)%Z.
Proof. done. Qed.

Lemma total_remove (f : nat → Z) (sel : list nat) (i : nat) :
  NoDup sel → i ∈ sel →
  total f sel = (f i + total f (filter (λ j, j ≠ i) sel))%Z.
Proof.
  induction 1 as [|j sel Hj Hnd IH]; intros Hi; [by apply elem_of_nil in Hi|].
  rewrite filter_cons, total_cons. destruct (decide (j = i)) as [->|Hne].
  - rewrite decide_False by (by intros ?).
    rewrite filter_all; [done|]. intros k Hk ->. done.
  - rewrite decide_True by done. rewrite total_cons, IH; [lia|].
    apply elem_of_cons in Hi as [->|?]; done.
Qed.

Lemma total_remove_le (f : nat → Z) (sel : list nat) (i : nat) :
  NoDup sel → (0 ≤ f i)%Z →
  (total f (filter (λ j, j ≠ i) sel) ≤ total f sel)%Z.
Proof.
  intros Hnd Hf. destruct (decide (i ∈ sel)) as [Hi|Hi].
  - rewrite (total_remove f sel i) by done. lia.
  - rewrite filter_all; [lia|]. intros j Hj ->. done.
Qed.

Lemma admissible_remove (env : Env) (cols : list Column) (widths : list Z)
    (sel : list nat) (i : nat) :
  (0 ≤ 1 + width_at widths i)%Z →
  admissible env cols widths sel →
  admissible env cols widths (filter (λ j, j ≠ i) sel).
Proof.
  intros Hw ([Hnd Hlt] & Hfits & Hgroup). split_and!.
  - split; [by apply NoDup_filter|].
    intros j [_ Hj]%list_elem_of_filter. by apply Hlt.
  - unfold fits in *.
    pose proof (total_remove_le (λ i, 1 + width_at widths i)%Z sel i Hnd Hw). lia.
  - intros g. specialize (Hgroup g).
    rewrite list_filter_filter.
    rewrite (list_filter_iff _ (λ j, j ≠ i ∧ cols !! j ≫= mutexGroup = Some g))
      by (intros; tauto).
    rewrite <- list_filter_filter.
    pose proof (length_filter (λ j, j ≠ i)
                  (filter (λ j, cols !! j ≫= mutexGroup = Some g) sel)). lia.
Qed.

Lemma width_at_nonneg (widths : list Z) (i : nat) :
  Forall (λ w, (0 ≤ w)%Z) widths → (0 ≤ width_at widths i)%Z.
Proof.
  intros H. unfold width_at. rewrite Forall_lookup in H.
  destruct (widths !! i) as [w|] eqn:Hw; simpl; [by apply (H i)|lia].
Qed.

(** X12. With a solver that keeps its contract and widths that are not
    negative, a feasible result never selects a column of negative
    importance: the install and [repo] columns, and the [homepage] column
    under [--repo], are shown only when a flag has raised them. *)
Theorem negative_importance_never_selected (env : Env) (program : Program)
    (cols : list Column) (widths : list Z) :
  catalog env program cols →
  Forall (λ w, (0 ≤ w)%Z) widths →
  solves (Solve env) (lp_model env cols widths) →
  feasible (Solve env (lp_model env cols widths)) = true →
  ∀ i, i ∈ (pickColumns env program cols widths).2 →
       (0 ≤ importance_at cols i)%Z.
Proof.
  intros Hc Hw Hsolves Hf i Hi.
  destruct (optimal_when_names_apart env program cols widths
              (catalog_names_apart _ _ _ Hc) Hsolves Hf) as [Hadm Hbest].
  pose proof (width_at_nonneg widths i Hw) as Hwi.
  specialize (Hbest _ (admissible_remove env cols widths _ i ltac:(lia) Hadm)).
  destruct Hadm as ([Hnd _] & _).
  rewrite (total_remove (importance_at cols) _ i Hnd Hi) in Hbest. lia.
Qed.

Lemma negative_importance_never_selected_witness :
  catalog env_exhaustive program_react (columns env_exhaustive program_react) ∧
  Forall (λ w, (0 ≤ w)%Z) [5; 3; 9; 16; 5; 50; 40; 40; 59; 59; 10; 11; 33; 33]%Z ∧
  ∀ i, i ∈ (pickColumns env_exhaustive program_react
              (columns env_exhaustive program_react)
              [5; 3; 9; 16; 5; 50; 40; 40; 59; 59; 10; 11; 33; 33]%Z).2 →
       (0 ≤ importance_at (columns env_exhaustive program_react) i)%Z.
Proof.
  pose proof (catalog_initial env_exhaustive program_react) as Hc.
  pose proof (catalog_names_apart _ _ _ Hc) as Hnames.
  assert (Forall (λ w, (0 ≤ w)%Z)
            [5; 3; 9; 16; 5; 50; 40; 40; 59; 59; 10; 11; 33; 33]%Z) as Hw
    by (repeat constructor; lia).
  split_and!; [done|done|].
  apply (negative_importance_never_selected env_exhaustive program_react
           (columns env_exhaustive program_react) _ Hc Hw).
  - by apply (exhaustive_solves env_exhaustive).
  - by apply (exhaustive_feasible env_exhaustive).
Defined.

(** ** The lines of the table *)

Lemma join_length (sep : jsstring) (l : list jsstring) :
  l ≠ [] →
  (Z.of_nat (length (join sep l)) + Z.of_nat (length sep))%Z
  = sumZ ((λ x, Z.of_nat (length x) + Z.of_nat (length sep))%Z <$> l).
Proof.
  induction l as [|x l IH]; intros Hl; [done|].
  destruct l as [|y l].
  - simpl. unfold sumZ. simpl. lia.
  - change (join sep (x :: y :: l)) with (x ++ sep ++ join sep (y :: l)).
    rewrite fmap_cons, sumZ_cons, <- IH by done.
    rewrite !length_app. lia.
Qed.

Lemma join_length_eq (sep : jsstring) (l k : list jsstring) :
  Forall2 (λ a b, length a = length b) l k →
  length (join sep l) = length (join sep k).
Proof.
  induction 1 as [|a b l k Hab Hlk IH]; [done|].
  destruct Hlk as [|a' b' l k Hab' Hlk]; [done|].
  change (join sep (a :: a' :: l)) with (a ++ sep ++ join sep (a' :: l)).
  change (join sep (b :: b' :: k)) with (b ++ sep ++ join sep (b' :: k)).
  rewrite !length_app, IH, Hab. done.
Qed.

Lemma header_cell_length (cols : list Column) (hits : list Hit) (i : nat)
    (spec : Column) :
  cols !! i = Some spec →
  Z.of_nat
    (length
       (default []
          (picked_column cols (formatted_columns cols (formatResult cols <$> hits))
             hits i !! 0)))
  = width_at (table_widths (formatted_columns cols (formatResult cols <$> hits))) i.
Proof.
  intros Hi. unfold width_at.
  rewrite (picked_header_of_hits _ _ _ _ Hi), (table_widths_lookup _ _ _ _ Hi),
    (column_of_formatResult _ _ _ _ Hi).
  simpl. by rewrite length_formatCell.
Qed.

(** X13. With a solver that keeps its contract, a feasible result gives a
    header line that fits the terminal: the aligned headers of the selected
    columns, joined by single spaces, are at most as long as the terminal is
    wide (80 when it has no width). *)
Theorem header_line_fits (env : Env) (program : Program) (cols : list Column)
    (hits : list Hit) :
  let fc := formatted_columns cols (formatResult cols <$> hits) in
  let sel := (pickColumns env program cols (table_widths fc)).2 in
  catalog env program cols →
  solves (Solve env) (lp_model env cols (table_widths fc)) →
  feasible (Solve env (lp_model env cols (table_widths fc))) = true →
  table_line (picked_column cols fc hits <$> sel) 0
  = [AStr (join (js " ")
             ((λ i, default [] (picked_column cols fc hits i !! 0)) <$> sel))] ∧
  length (join (js " ")
            ((λ i, default [] (picked_column cols fc hits i !! 0)) <$> sel))
  ≤ match stdout_columns env with
    | Some (S n) => S n
    | Some O | None => 80
    end.
Proof.
  intros fc sel Hc Hsolves Hf.
  split; [unfold table_line; by rewrite <- list_fmap_compose|].
  destruct (optimal_when_names_apart env program cols (table_widths fc)
              (catalog_names_apart _ _ _ Hc) Hsolves Hf)
    as [([_ Hlt] & Hfits & _) _].
  fold sel in Hlt, Hfits. clearbody sel.
  unfold fits, total, terminal_width in Hfits.
  destruct (decide (sel = [])) as [->|Hne]; [simpl; repeat case_match; lia|].
  pose proof (join_length (js " ")
                ((λ i, default [] (picked_column cols fc hits i !! 0)) <$> sel)) as Hj.
  rewrite <- list_fmap_compose in Hj.
  rewrite (list_fmap_ext _ (λ i, 1 + width_at (table_widths fc) i)%Z) in Hj.
  - specialize (Hj ltac:(by intros ?%fmap_nil_inv)). simpl in Hj. lia.
  - intros _ j Hj'%list_elem_of_lookup_2. simpl.
    destruct (lookup_lt_is_Some_2 cols j (Hlt j Hj')) as [spec Hspec].
    unfold fc. rewrite (header_cell_length _ _ _ _ Hspec). lia.
Qed.

Lemma header_line_fits_witness :
  catalog env_exhaustive program_react (columns env_exhaustive program_react) ∧
  length
    (join (js " ")
       ((λ i, default []
                (picked_column (columns env_exhaustive program_react)
                   (formatted_columns (columns env_exhaustive program_react)
                      (formatResult (columns env_exhaustive program_react)
                         <$> [hit_react; hit_react_dom]))
                   [hit_react; hit_react_dom] i !! 0))
        <$> (pickColumns env_exhaustive program_react
               (columns env_exhaustive program_react)
               (table_widths
                  (formatted_columns (columns env_exhaustive program_react)
                     (formatResult (columns env_exhaustive program_react)
                        <$> [hit_react; hit_react_dom])))).2))
  ≤ 80.
Proof.
  pose proof (catalog_initial env_exhaustive program_react) as Hc.
  pose proof (catalog_names_apart _ _ _ Hc) as Hnames.
  split; [done|].
  apply (header_line_fits env_exhaustive program_react
           (columns env_exhaustive program_react) [hit_react; hit_react_dom] Hc).
  - by apply (exhaustive_solves env_exhaustive).
  - by apply (exhaustive_feasible env_exhaustive).
Defined.

Lemma highlightValue_no_match (env : Env) (val : jsstring) (a : option Description) :
  no_match a → highlightValue env val a = val.
Proof. destruct a as [d|]; [apply highlightValue_none|done]. Qed.

Lemma highlightValue_call_no_match (env : Env) (val : jsstring)
    (a : option Description) :
  no_match a → highlightValue_call env val a = inr val.
Proof.
  intros H. destruct a as [d|]; [|done]. simpl in *. by rewrite H.
Qed.

(** X14. The row of a hit whose name and description carry no match is as
    long as the header line, for any selection of columns: every cell of
    such a row has the width of its column. *)
Theorem unmatched_row_as_long_as_header (env : Env) (program : Program)
    (cols : list Column) (hits : list Hit) (k : nat) (hit : Hit) (sel : list nat) :
  let fc := formatted_columns cols (formatResult cols <$> hits) in
  catalog env program cols →
  hits !! k = Some hit →
  no_match (hl_name (_highlightResult hit)) →
  no_match (hl_description (_highlightResult hit)) →
  length (join (js " ")
            ((λ i, default [] (picked_column cols fc hits i !! S k)) <$> sel))
  = length (join (js " ")
              ((λ i, default [] (picked_column cols fc hits i !! 0)) <$> sel)).
Proof.
  intros fc Hc Hk Hname Hdesc. apply join_length_eq.
  apply Forall2_fmap, Forall_Forall2_diag, Forall_forall. intros i _.
  destruct (cols !! i) as [spec|] eqn:Hi.
  - unfold fc.
    rewrite (picked_header_of_hits _ _ _ _ Hi), (picked_row_of_hits _ _ _ _ _ _ Hi Hk).
    simpl. rewrite length_formatCell.
    pose proof (catalog_annotations _ _ _ Hc) as Hann.
    rewrite Forall_lookup in Hann. specialize (Hann _ _ Hi). simpl in Hann.
    destruct (highlight spec) as [hl|]; [|by rewrite length_formatCell].
    destruct Hann as [-> | ->]; cbv beta;
      rewrite highlightValue_call_no_match by done; simpl;
      by rewrite length_formatCell.
  - unfold picked_column. by rewrite Hi.
Qed.

Lemma unmatched_row_as_long_as_header_witness :
  catalog env_fallback program_react (columns env_fallback program_react) ∧
  [hit_react; hit_plain] !! 1 = Some hit_plain ∧
  no_match (hl_name (_highlightResult hit_plain)) ∧
  no_match (hl_description (_highlightResult hit_plain)) ∧
  length (join (js " ")
            ((λ i, default []
                     (picked_column (columns env_fallback program_react)
                        (formatted_columns (columns env_fallback program_react)
                           (formatResult (columns env_fallback program_react)
                              <$> [hit_react; hit_plain]))
                        [hit_react; hit_plain] i !! 2)) <$> [0; 2; 7]))
  = length (join (js " ")
              ((λ i, default []
                       (picked_column (columns env_fallback program_react)
                          (formatted_columns (columns env_fallback program_react)
                             (formatResult (columns env_fallback program_react)
                                <$> [hit_react; hit_plain]))
                          [hit_react; hit_plain] i !! 0)) <$> [0; 2; 7])).
Proof.
  split_and!; [apply catalog_initial|done|done|done|].
  apply (unmatched_row_as_long_as_header env_fallback program_react
           (columns env_fallback program_react) [hit_react; hit_plain] 1 hit_plain
           [0; 2; 7] (catalog_initial _ _) eq_refl I I).
Defined.

(** ** Highlighting one word *)

Lemma starts_with_ci_upper (w s : jsstring) :
  starts_with_ci w s = true → toUpperCase w = toUpperCase (take (length w) s).
Proof.
  revert s. induction w as [|a w IH]; intros s H; [done|].
  destruct s as [|b s]; [done|]. simpl in H.
  apply andb_true_iff in H as [Hab%bool_decide_eq_true H].
  unfold toUpperCase in *. simpl. rewrite Hab. f_equal. by apply IH.
Qed.

Lemma replace_go_empty_word (s : jsstring) : replace_go [] [] 0 s = s.
Proof. induction s as [|c s IH]; [done|]. simpl. by rewrite IH. Qed.

Lemma visible_replace_go (level : bool) (w s : jsstring) (skip : nat) :
  ESC ∉ s → ESC ∉ w → w ≠ [] → skip ≤ length s →
  toUpperCase (visible_go 0 (replace_go w (chalk_bold level w) skip s))
  = toUpperCase (drop skip s).
Proof.
  intros Hs Hw Hne. revert skip.
  induction s as [|c s IH]; intros skip Hskip.
  { simpl in Hskip. replace skip with 0 by lia. by destruct w. }
  assert (ESC ∉ s) as Hs' by (intros ?; apply Hs; by right).
  assert (c ≠ ESC) as Hc by (intros ->; apply Hs; by left).
  destruct skip as [|skip]; [|simpl in *; apply IH; [done|lia]].
  change (replace_go w (chalk_bold level w) 0 (c :: s)) with
    (if starts_with_ci w (c :: s) then
       match w with
       | [] => chalk_bold level w ++ c :: replace_go w (chalk_bold level w) 0 s
       | _ :: w' =>
           chalk_bold level w ++ replace_go w (chalk_bold level w) (length w') s
       end
     else c :: replace_go w (chalk_bold level w) 0 s).
  destruct (starts_with_ci w (c :: s)) eqn:Hm.
  - destruct w as [|a w']; [done|].
    pose proof (starts_with_ci_length _ _ Hm) as Hlen. simpl in Hlen.
    rewrite visible_replacement by done.
    unfold toUpperCase in *. rewrite fmap_app.
    fold (toUpperCase (a :: w')). rewrite (starts_with_ci_upper _ _ Hm).
    unfold toUpperCase. rewrite IH by (done || lia).
    rewrite <- fmap_app. f_equal.
    change (drop (length w') s) with (drop (length (a :: w')) (c :: s)).
    apply take_drop.
  - change (c :: replace_go w (chalk_bold level w) 0 s)
      with ([c] ++ replace_go w (chalk_bold level w) 0 s).
    rewrite visible_plain by (intros ?%list_elem_of_singleton; congruence).
    unfold toUpperCase in *. simpl. f_equal. apply (IH Hs' 0). lia.
Qed.

(** X15. One matched word of plain ASCII text cannot change what a cell
    shows beyond the case of ASCII letters: for a value and a word without
    escape code, the word in ASCII and free of pattern syntax, the
    highlighted value the terminal shows has the code units of the value up
    to the case of the ASCII letters, and so its length, with styling on or
    off.  (The occurrence takes the case of the word; a word with a letter
    outside ASCII is the engine's to match.) *)
Theorem one_word_keeps_text_up_to_case (env : Env) (val : jsstring)
    (d : Description) (w : jsstring) :
  matchLevel d ≠ LevelNone →
  fullyHighlighted d = false →
  matchedWords d = [w] →
  plain_word w = true →
  ESC ∉ w →
  ESC ∉ val →
  same_letters (visible (highlightValue env val (Some d))) val ∧
  length (visible (highlightValue env val (Some d))) = length val.
Proof.
  intros Hl Hf Hwords Hplain Hw Hval.
  assert (toUpperCase (visible (highlightValue env val (Some d))) = toUpperCase val)
    as H.
  { rewrite highlightValue_words, Hwords by done. simpl.
    unfold replace_word. rewrite Hplain, plain_replacement_bold by done. simpl.
    unfold replace_literal, visible.
    destruct w as [|a w].
    - replace (chalk_bold (chalk_level env) []) with (@nil N)
        by (by destruct (chalk_level env)).
      rewrite replace_go_empty_word. f_equal. apply (visible_bold false _ Hval).
    - rewrite visible_replace_go; [done..|simpl; lia]. }
  split; [exact H|].
  apply (f_equal length) in H. by rewrite !length_toUpperCase in H.
Qed.

Lemma one_word_keeps_text_up_to_case_witness :
  plain_word (js "react") = true ∧
  (ESC ∉ js "react") ∧
  (ESC ∉ js "React") ∧
  length (visible (highlightValue env_fallback (js "React") (Some partial_react)))
  = length (js "React").
Proof.
  assert (ESC ∉ js "react") as H1 by names_differ.
  assert (ESC ∉ js "React") as H2 by names_differ.
  split_and!; [done..|].
  apply (one_word_keeps_text_up_to_case env_fallback (js "React") partial_react
           (js "react")); done.
Defined.

(** ** Highlighting without styling *)

Lemma replace_go_no_ESC (w r s : jsstring) (skip : nat) :
  ESC ∉ s → ESC ∉ r → ESC ∉ replace_go w r skip s.
Proof.
  intros Hs Hr. revert skip. induction s as [|c s IH]; intros skip.
  { simpl. destruct w; [done|by intros ?%elem_of_nil]. }
  assert (ESC ∉ s) as Hs' by (intros ?; apply Hs; by right).
  assert (ESC ≠ c) as Hc by (intros Heq; apply Hs; rewrite Heq; by left).
  destruct skip as [|skip]; [|by apply IH].
  change (replace_go w r 0 (c :: s)) with
    (if starts_with_ci w (c :: s) then
       match w with
       | [] => r ++ c :: replace_go w r 0 s
       | _ :: w' => r ++ replace_go w r (length w') s
       end
     else c :: replace_go w r 0 s).
  destruct (starts_with_ci w (c :: s)); [destruct w as [|a w']|].
  - intros [?|[?|?]%elem_of_cons]%elem_of_app; [done|done|by apply (IH Hs' 0)].
  - intros [?|?]%elem_of_app; [done|by apply (IH Hs' (length w'))].
  - intros [?|?]%elem_of_cons; [done|by apply (IH Hs' 0)].
Qed.

Lemma replace_word_unstyled (env : Env) (val w : jsstring) :
  chalk_level env = false → plain_word w = true → ESC ∉ w → ESC ∉ val →
  toUpperCase (replace_word env val w) = toUpperCase val ∧
  (ESC ∉ replace_word env val w).
Proof.
  intros Hoff Hplain Hw Hval. unfold replace_word.
  rewrite Hplain, plain_replacement_bold by done. rewrite Hoff. simpl.
  unfold replace_literal. split; [|by apply replace_go_no_ESC].
  destruct w as [|a w]; [by rewrite replace_go_empty_word|].
  pose proof (visible_replace_go false (a :: w) val 0 Hval Hw
                ltac:(done) ltac:(lia)) as H.
  change (chalk_bold false (a :: w)) with (a :: w) in H.
  pose proof (visible_bold false (replace_go (a :: w) (a :: w) 0 val)
                (replace_go_no_ESC _ _ _ _ Hval Hw)) as Hvis.
  change (visible_go 0 (replace_go (a :: w) (a :: w) 0 val)
          = replace_go (a :: w) (a :: w) 0 val) in Hvis.
  by rewrite Hvis in H.
Qed.

(** X16. With styling off, highlighting changes a value in the case of
    ASCII letters only, for any number of matched words, each plain ASCII
    text free of pattern syntax and escape codes: nothing is inserted, so a
    later word cannot hit what an earlier one left, and the value keeps its
    length. *)
Theorem unstyled_highlight_keeps_text_up_to_case (env : Env) (val : jsstring)
    (a : option Description) :
  chalk_level env = false →
  match a with
  | None => True
  | Some d => Forall (λ w, plain_word w = true ∧ ESC ∉ w) (matchedWords d)
  end →
  ESC ∉ val →
  same_letters (highlightValue env val a) val ∧
  length (highlightValue env val a) = length val.
Proof.
  intros Hoff Hwords Hval.
  assert (toUpperCase (highlightValue env val a) = toUpperCase val) as H.
  { destruct a as [d|]; [|done].
    destruct (matchLevel d) eqn:Hl; [by rewrite highlightValue_none|..];
      (destruct (fullyHighlighted d) eqn:Hf;
       [rewrite highlightValue_full by congruence; by rewrite Hoff|]);
      rewrite highlightValue_words by congruence;
      clear Hl Hf; revert val Hval;
      induction Hwords as [|w ws [Hplain Hw] _ IH]; intros val Hval; try done;
      simpl; destruct (replace_word_unstyled env val w Hoff Hplain Hw Hval)
        as [Hup Hesc]; by rewrite IH. }
  split; [exact H|].
  apply (f_equal length) in H. by rewrite !length_toUpperCase in H.
Qed.

Lemma unstyled_highlight_keeps_text_up_to_case_witness :
  chalk_level env_offline = false ∧
  Forall (λ w, plain_word w = true ∧ ESC ∉ w) (matchedWords partial_a_m) ∧
  (ESC ∉ js "am") ∧
  length (highlightValue env_offline (js "am") (Some partial_a_m)) = length (js "am").
Proof.
  assert (Forall (λ w, plain_word w = true ∧ ESC ∉ w) (matchedWords partial_a_m))
    as Hw by (repeat constructor; names_differ).
  assert (ESC ∉ js "am") as Hval by names_differ.
  split_and!; [done..|].
  apply (unstyled_highlight_keeps_text_up_to_case env_offline (js "am")
           (Some partial_a_m) eq_refl Hw Hval).
Defined.

(** ** The shape of the model *)

Lemma set_keys_NoDup (seen a : list jsstring) : NoDup (set_keys seen a).
Proof.
  revert seen. induction a as [|x a IH]; intros seen; simpl; [constructor|].
  case_decide; [apply IH|]. constructor; [|apply IH].
  rewrite set_keys_elem_of. intros [_ Hx]. apply Hx. by left.
Qed.

(** X17. The model of [pickColumns] is a program in integers with one
    variable per column: the integer variables are exactly the variables,
    named by the indices of the columns, each with a constraint of its own
    name and maximum 1.  There is one constraint per mutex group, each group
    once, the groups being those some column names. *)
Theorem lp_model_shape (env : Env) (cols : list Column) (widths : list Z) :
  ints (lp_model env cols widths) = num_str <$> seq 0 (length cols) ∧
  (∀ v, v ∈ ints (lp_model env cols widths)
        ↔ is_Some (variables (lp_model env cols widths) !! v)) ∧
  (∀ i, i < length cols →
        ∃ con, constraints (lp_model env cols widths) !! num_str i = Some con
               ∧ cmax con = 1%Z) ∧
  NoDup (mutexes_of cols) ∧
  (∀ g, g ∈ mutexes_of cols ↔ ∃ c, c ∈ cols ∧ mutexGroup c = Some g) ∧
  opType (lp_model env cols widths) = OpMax ∧
  optimize (lp_model env cols widths) = js "importance".
Proof.
  split_and!; [apply ints_of_model| |apply constraints_index|apply set_keys_NoDup
              |apply mutexes_of_elem_of|done|done].
  intros v. rewrite ints_of_model. split.
  - intros (i & -> & Hi%elem_of_seq)%list_elem_of_fmap.
    destruct (lookup_lt_is_Some_2 cols i ltac:(lia)) as [c Hc].
    rewrite (variables_lookup env cols widths i c Hc). eauto.
  - intros Hv. destruct (decide (v ∈ num_str <$> seq 0 (length cols))) as [|Hn];
      [done|].
    rewrite <- (variable_names cols widths) in Hn.
    apply fromPairs_lookup_None in Hn. simpl in Hv. rewrite Hn in Hv.
    by destruct Hv.
Qed.

(** ** A rejected search *)

(** X18. When the filter options do not conflict and the search is rejected,
    the run logs nothing on the standard output, with or without [--debug],
    and reports the rejection and nothing else as its error. *)
Theorem rejected_search_prints_nothing (env : Env) (program : Program)
    (e : jsstring) :
  (untyped program && dt program) || (untyped program && bundled program)
  || (dt program && bundled program) = false →
  search env (join (js " ") (args program))
    (search_options program
       (if untyped program then FILTERS_untyped
        else if dt program then FILTERS_dt
        else if bundled program then FILTERS_bundled
        else FILTERS_default)) = inl e →
  main env program = {| stdout := []; stderr := [e] |}.
Proof.
  intros Hflags Hsearch. unfold main.
  destruct (applyFlags_catalog env program) as (cols & _ & ->).
  rewrite decide_False
    by (destruct (untyped program), (dt program), (bundled program);
        simpl in *; (discriminate || lia)).
  by rewrite Hsearch.
Qed.

Lemma rejected_search_prints_nothing_witness :
  (untyped program_debug && dt program_debug)
  || (untyped program_debug && bundled program_debug)
  || (dt program_debug && bundled program_debug) = false ∧
  main env_offline program_debug
  = {| stdout := []; stderr := [js "getaddrinfo ENOTFOUND"] |}.
Proof.
  split; [reflexivity|].
  apply (rejected_search_prints_nothing env_offline program_debug
           (js "getaddrinfo ENOTFOUND")); reflexivity.
Defined.
